(** * type-writer-text: the TypeWriterText custom element

    A shallow embedding of [src/type-writer-text.js]: the content parser
    ([_parseContent], [_traverseNodes]), the incremental renderer
    ([_render], [_tagsMatch]), the duration policy ([_calculateCharDelay])
    and the playback controller ([start], [pause], [resume], [complete],
    [reset], [seek], [setText], [_animate], the element's callbacks).

    Conventions of the embedding.
    - A JavaScript number is a [number]: a rational, one of the two
      infinities, or NaN.  Comparisons are exact; [+], [-], [*] and [/]
      round their result to binary64 (to nearest, ties to even, with
      subnormal numbers and overflow to an infinity).  The two zeros are
      one number: the component never divides by a number that can be
      the negative zero.
    - A string of text is the list of its UTF-16 code units.  The names
      of elements and attributes are strings of characters up to
      U+00FF, to which the case mappings and the host's notion of a
      valid name are known.
    - The host's HTML parser ([tempDiv.innerHTML = ...]) is outside the
      component: markup enters the model as a string together with the
      node list the parser gives for it.
    - The fragment built by [_render] lives in a node store ([Document]);
      a node reference is an index into it, so that [appendChild] and
      [setAttribute] are updates in place and identity is an index.
    - An exception (the [TypeError] of a unit that is not there, the
      [InvalidCharacterError] of the host) is an [Outcome] of its own. *)

From Stdlib Require Import Ascii String QArith Qround Qabs Qpower Qcanon Lqa.
From stdpp Require Import gmap strings list fin_maps.

Open Scope Z_scope.

(** ** JavaScript numbers *)

Inductive number : Type :=
| NaN
| NegInfinity
| Num (q : Q)
| Infinity.

Definition of_Z (z : Z) : number := Num (inject_Z z).
Definition of_nat (n : nat) : number := of_Z (Z.of_nat n).

(** The length of an array is below [2^32]. *)
Definition is_array_length (n : nat) : Prop := Z.of_nat n < 4294967296.

Definition Qlt_bool (x y : Q) : bool := negb (Qle_bool y x).

(** [a < b] *)
Definition js_lt (a b : number) : bool :=
  match a, b with
  | NaN, _ | _, NaN => false
  | _, NegInfinity => false
  | NegInfinity, _ => true
  | Infinity, _ => false
  | _, Infinity => true
  | Num x, Num y => Qlt_bool x y
  end.

(** [a <= b] *)
Definition js_le (a b : number) : bool :=
  match a, b with
  | NaN, _ | _, NaN => false
  | NegInfinity, _ => true
  | _, Infinity => true
  | _, NegInfinity => false
  | Infinity, _ => false
  | Num x, Num y => Qle_bool x y
  end.

(** [a > b] and [a >= b] *)
Definition js_gt (a b : number) : bool := js_lt b a.
Definition js_ge (a b : number) : bool := js_le b a.

(** Truthiness of a number: [0] and [NaN] are falsy. *)
Definition truthy (a : number) : bool :=
  match a with
  | NaN => false
  | Num q => negb (Qeq_bool q 0)
  | _ => true
  end.

Definition js_neg (a : number) : number :=
  match a with
  | NaN => NaN
  | NegInfinity => Infinity
  | Infinity => NegInfinity
  | Num q => Num (Qred (- q))
  end.

(** *** Rounding to binary64 *)

(** [2^e] *)
Definition pow2 (e : Z) : Q := Qpower 2 e.

(** [floor (log2 x)] for a positive [x] *)
Definition Qlog2 (x : Q) : Z :=
  let k := Z.log2 (Qnum x) - Z.log2 (Zpos (Qden x)) in
  if Qle_bool (pow2 k) x then k else k - 1.

(** The nearest integer, the even one of two that are equally near *)
Definition nearest_even (x : Q) : Z :=
  let f := Qfloor x in
  match (x - inject_Z f ?= 1 # 2)%Q with
  | Lt => f
  | Gt => f + 1
  | Eq => if Z.even f then f else f + 1
  end.

(** The exponent of the last place of the binary64 numbers around [x]:
    53 bits of precision, and no exponent below that of the subnormal
    numbers. *)
Definition last_place (x : Q) : Z := Z.max (-1074) (Qlog2 (Qabs x) - 52).

(** [x] in binary64, before it is found to be finite or not *)
Definition rounded (x : Q) : Q :=
  (inject_Z (nearest_even (x / pow2 (last_place x))) * pow2 (last_place x))%Q.

(** [x] rounded to binary64 *)
Definition round64 (x : Q) : number :=
  if Qle_bool (pow2 1024) (rounded x) then Infinity
  else if Qle_bool (rounded x) (- pow2 1024) then NegInfinity
  else Num (Qred (rounded x)).

Definition js_add (a b : number) : number :=
  match a, b with
  | NaN, _ | _, NaN => NaN
  | Infinity, NegInfinity | NegInfinity, Infinity => NaN
  | Infinity, _ | _, Infinity => Infinity
  | NegInfinity, _ | _, NegInfinity => NegInfinity
  | Num x, Num y => round64 (x + y)
  end.

Definition js_sub (a b : number) : number := js_add a (js_neg b).

(** The infinity that carries the sign of [s * t]; NaN when one is zero. *)
Definition signed_inf (s t : Q) : number :=
  if Qeq_bool s 0 || Qeq_bool t 0 then NaN
  else if Bool.eqb (Qlt_bool s 0) (Qlt_bool t 0) then Infinity
  else NegInfinity.

Definition js_mul (a b : number) : number :=
  match a, b with
  | NaN, _ | _, NaN => NaN
  | Num x, Num y => round64 (x * y)
  | Num x, Infinity | Infinity, Num x => signed_inf x 1
  | Num x, NegInfinity | NegInfinity, Num x => signed_inf x (-1)
  | Infinity, Infinity | NegInfinity, NegInfinity => Infinity
  | Infinity, NegInfinity | NegInfinity, Infinity => NegInfinity
  end.

Definition js_div (a b : number) : number :=
  match a, b with
  | NaN, _ | _, NaN => NaN
  | Num x, Num y =>
      if Qeq_bool y 0 then signed_inf x 1 else round64 (x / y)
  | Num _, (Infinity | NegInfinity) => Num 0
  | Infinity, Num y => if Qlt_bool y 0 then NegInfinity else Infinity
  | NegInfinity, Num y => if Qlt_bool y 0 then Infinity else NegInfinity
  | (Infinity | NegInfinity), (Infinity | NegInfinity) => NaN
  end.

Definition Math_floor (a : number) : number :=
  match a with
  | Num q => of_Z (Qfloor q)
  | _ => a
  end.

Definition Math_max (a b : number) : number :=
  match a, b with
  | NaN, _ | _, NaN => NaN
  | _, _ => if js_lt a b then b else a
  end.

Definition Math_min (a b : number) : number :=
  match a, b with
  | NaN, _ | _, NaN => NaN
  | _, _ => if js_lt b a then b else a
  end.


(** [lo <= a <= hi] as a proposition, false of NaN. *)
Definition within (lo hi a : number) : Prop :=
  js_le lo a = true /\ js_le a hi = true.

(** ** Strings and case *)

(** A UTF-16 code unit, and text as JavaScript has it *)
Definition CodeUnit : Type := N.
Definition DOMString : Type := list CodeUnit.

(** The code units of a literal *)
Definition utf16 (s : string) : DOMString :=
  map N_of_ascii (list_ascii_of_string s).

(** The lower case of a character up to U+00FF: the letters [A-Z] and
    the capital letters of Latin-1, U+00C0 to U+00DE but for the
    multiplication sign *)
Definition lower_char (c : ascii) : ascii :=
  let n := N_of_ascii c in
  if ((65 <=? n) && (n <=? 90)
      || (192 <=? n) && (n <=? 222) && negb (n =? 215))%N
  then ascii_of_N (n + 32) else c.

(** ASCII lower and upper case, as the DOM applies them to names *)
Definition ascii_lower_char (c : ascii) : ascii :=
  let n := N_of_ascii c in
  if ((65 <=? n) && (n <=? 90))%N then ascii_of_N (n + 32) else c.

Definition ascii_upper_char (c : ascii) : ascii :=
  let n := N_of_ascii c in
  if ((97 <=? n) && (n <=? 122))%N then ascii_of_N (n - 32) else c.

Fixpoint map_string (f : ascii -> ascii) (s : string) : string :=
  match s with
  | EmptyString => EmptyString
  | String c r => String (f c) (map_string f r)
  end.

(** [s.toLowerCase()] *)
Definition toLowerCase (s : string) : string := map_string lower_char s.

Definition ascii_lowercase (s : string) : string :=
  map_string ascii_lower_char s.
Definition ascii_uppercase (s : string) : string :=
  map_string ascii_upper_char s.

(** The names [createElement] and [setAttribute] accept: the [Name]
    production of XML, on the characters up to U+00FF.  Other names
    raise an [InvalidCharacterError]. *)
Definition name_start_char (c : ascii) : bool :=
  let n := N_of_ascii c in
  ((n =? 58) || (65 <=? n) && (n <=? 90) || (n =? 95)
   || (97 <=? n) && (n <=? 122) || (192 <=? n) && (n <=? 214)
   || (216 <=? n) && (n <=? 246) || (248 <=? n))%N.

Definition name_char (c : ascii) : bool :=
  let n := N_of_ascii c in
  (name_start_char c || (n =? 45) || (n =? 46)
   || (48 <=? n) && (n <=? 57) || (n =? 183))%N.

Definition valid_name (s : string) : bool :=
  match s with
  | EmptyString => false
  | String c r => name_start_char c && forallb name_char (list_ascii_of_string r)
  end.

(** The names this file registers as custom elements
    ([customElements.define]) *)
Definition registered (localName : string) : bool :=
  bool_decide
    (localName ∈ ["type-writer-text"; "write-example"; "slider-control"]).

(** ** The DOM as the component sees it *)

(** A tree of nodes: text nodes, element nodes with their [NamedNodeMap]
    of attributes, the node kinds the component ignores (comments and the
    like) and, in what [_render] builds, custom elements: an element
    created under a registered name is an instance of the class
    registered for it, and what it shows once connected is that class's
    business. *)
#[local] Unset Elimination Schemes.
Inductive Node : Type :=
| TextNode (data : DOMString)
| ElementNode (nodeName : string) (attrs : gmap string DOMString)
    (childNodes : list Node)
| CommentNode (data : DOMString)
| CustomElementNode (nodeName : string) (attrs : gmap string DOMString)
    (childNodes : list Node).
#[local] Set Elimination Schemes.

(** A markup string ([innerHTML], the argument of [setText]) with the
    children the host's parser gives a [div] for it *)
Record Markup : Type := { html : DOMString; parsed : list Node }.

(** The store in which [_render] builds its fragment.  A reference to a
    node is its index; children are references. *)
Inductive DomNode : Type :=
| DocumentFragment (childNodes : list nat)
| Element (nodeName : string) (attrs : gmap string DOMString)
    (childNodes : list nat)
| Text (data : DOMString).

Abbreviation Document := (list DomNode).

(** [document.createDocumentFragment()] and
    [document.createTextNode(data)]: the new node is allocated at the end
    of the store. *)
Definition createDocumentFragment (d : Document) : nat * Document :=
  (length d, d ++ [DocumentFragment []]).

Definition createTextNode (data : DOMString) (d : Document) : nat * Document :=
  (length d, d ++ [Text data]).

(** A new HTML element; it reports its name in upper case. *)
Definition new_element (localName : string) (d : Document) : nat * Document :=
  (length d, d ++ [Element (ascii_uppercase localName) ∅ []]).

(** [document.createElement(localName)]: the name is checked, then put
    in lower case. *)
Definition createElement (localName : string) (d : Document)
    : option (nat * Document) :=
  if valid_name localName then Some (new_element (ascii_lowercase localName) d)
  else None.

Definition put_attribute (element : nat) (name : string) (value : DOMString)
    (d : Document) : Document :=
  match d !! element with
  | Some (Element n a c) => <[element := Element n (<[name := value]> a) c]> d
  | _ => d
  end.

(** [element.setAttribute(qualifiedName, value)] on an HTML element: the
    name is checked, then put in lower case. *)
Definition setAttribute (element : nat) (qualifiedName : string)
    (value : DOMString) (d : Document) : option Document :=
  if valid_name qualifiedName
  then Some (put_attribute element (ascii_lowercase qualifiedName) value d)
  else None.

(** [parent.appendChild(child)], for a child that has no parent yet *)
Definition appendChild (parent child : nat) (d : Document) : Document :=
  match d !! parent with
  | Some (DocumentFragment c) =>
      <[parent := DocumentFragment (c ++ [child])]> d
  | Some (Element n a c) => <[parent := Element n a (c ++ [child])]> d
  | _ => d
  end.

(** [element.nodeName] *)
Definition nodeName_of (d : Document) (element : nat) : option string :=
  match d !! element with
  | Some (Element n _ _) => Some n
  | _ => None
  end.

Definition childNodes_of (d : Document) (ref : nat) : list nat :=
  match d !! ref with
  | Some (DocumentFragment c) | Some (Element _ _ c) => c
  | _ => []
  end.

(** The tree below a reference, read off the store.  [fuel] bounds the
    depth; the number of nodes of the store is always enough. *)
Fixpoint subtree (fuel : nat) (d : Document) (ref : nat) : option Node :=
  match fuel with
  | O => None
  | S fuel' =>
      match d !! ref with
      | Some (Text s) => Some (TextNode s)
      | Some (Element n a c) => ElementNode n a <$> mapM (subtree fuel' d) c
      | _ => None
      end
  end.

Definition subtrees (d : Document) (refs : list nat) : option (list Node) :=
  mapM (subtree (length d) d) refs.

(** The elements of a built tree that are custom elements: those of a
    registered name *)
Fixpoint upgraded (node : Node) : Node :=
  match node with
  | ElementNode n a kids =>
      if registered (ascii_lowercase n)
      then CustomElementNode n a (map upgraded kids)
      else ElementNode n a (map upgraded kids)
  | _ => node
  end.

(** ** ContentParser *)

Record TagInfo : Type := { name : string; attributes : gmap string DOMString }.

(** One entry of [_parsedNodes]; its [type] is always ['char']. *)
Record CharUnit : Type := { char : CodeUnit; tags : list TagInfo }.

(** [tagInfo.attributes[attr.name] = attr.value], on the plain object
    [{}]: the name [__proto__] is that of an accessor of
    [Object.prototype], to which assigning a string does nothing. *)
Definition assign (o : gmap string DOMString) (k : string) (v : DOMString)
    : gmap string DOMString :=
  if String.eqb k "__proto__" then o else <[k := v]> o.

(** [_traverseNodes(nodes, openTags)], one node of the [for ... of]: the
    third argument and the result are [this._parsedNodes] before and
    after. *)
Fixpoint traverseNode (node : Node) (openTags : list TagInfo)
    (_parsedNodes : list CharUnit) {struct node} : list CharUnit :=
  match node with
  | TextNode text =>
      foldl (fun parsed c => parsed ++ [{| char := c; tags := openTags |}])
        _parsedNodes text
  | ElementNode nodeName attrs childNodes
  | CustomElementNode nodeName attrs childNodes =>
      let tagInfo :=
        {| name := toLowerCase nodeName;
           attributes := map_fold (fun k v o => assign o k v) ∅ attrs |} in
      let newOpenTags := openTags ++ [tagInfo] in
      foldl (fun parsed child => traverseNode child newOpenTags parsed)
        _parsedNodes childNodes
  | CommentNode _ => _parsedNodes
  end.

Definition _traverseNodes (nodes : list Node) (openTags : list TagInfo)
    (_parsedNodes : list CharUnit) : list CharUnit :=
  foldl (fun parsed node => traverseNode node openTags parsed)
    _parsedNodes nodes.

(** [_parseContent()], from the children the host built for the markup *)
Definition _parseContent (markup : list Node) : list CharUnit :=
  _traverseNodes markup [] [].

(** ** IncrementalRenderer *)

Record RenderState : Type := {
  document : Document;
  tagStack : list nat;
  parentStack : list nat;
  currentParent : nat
}.

(** [_tagsMatch(tags1, tags2)]: [tags1] holds elements, [tags2] tag infos *)
Fixpoint tagsMatch_from (d : Document) (tags1 : list nat)
    (tags2 : list TagInfo) : bool :=
  match tags1, tags2 with
  | element :: r1, tagInfo :: r2 =>
      match nodeName_of d element with
      | Some n =>
          if String.eqb (toLowerCase n) (name tagInfo)
          then tagsMatch_from d r1 r2 else false
      | None => false
      end
  | _, _ => true
  end.

Definition _tagsMatch (d : Document) (tags1 : list nat)
    (tags2 : list TagInfo) : bool :=
  if negb (length tags1 =? length tags2)%nat then false
  else tagsMatch_from d tags1 tags2.

(** The condition of the [while] that closes tags *)
Definition must_close (st : RenderState) (node : CharUnit) : bool :=
  (length (tags node) <? length (tagStack st))%nat
  || ((0 <? length (tagStack st))%nat
      && negb (_tagsMatch (document st) (tagStack st) (tags node))).

(** Its body: both stacks are popped *)
Definition close_tag (st : RenderState) : RenderState :=
  let parentStack' := removelast (parentStack st) in
  {| document := document st;
     tagStack := removelast (tagStack st);
     parentStack := parentStack';
     currentParent := default (currentParent st) (last parentStack') |}.

(** The [while] itself; every turn pops [tagStack], whose length bounds
    the number of turns. *)
Fixpoint close_tags (turns : nat) (st : RenderState) (node : CharUnit)
    : RenderState :=
  if must_close st node then
    match turns with
    | O => st
    | S turns' => close_tags turns' (close_tag st) node
    end
  else st.

(** What [open_tag] leaves once the host has done its part *)
Definition opened (st : RenderState) (element : nat) (d : Document)
    : RenderState :=
  {| document := appendChild (currentParent st) element d;
     tagStack := tagStack st ++ [element];
     parentStack := parentStack st ++ [element];
     currentParent := element |}.

(** One turn of the [for] that opens tags; [None] when the host raises *)
Definition open_tag (st : RenderState) (tagInfo : TagInfo)
    : option RenderState :=
  '(element, d1) ← createElement (name tagInfo) (document st);
  d2 ← map_fold (fun k v d => d ≫= setAttribute element k v) (Some d1)
         (attributes tagInfo);
  Some (opened st element d2).

Definition open_tags (st : RenderState) (node : CharUnit)
    : option RenderState :=
  foldl (fun st tagInfo => st ≫= fun st => open_tag st tagInfo) (Some st)
    (drop (length (tagStack st)) (tags node)).

Definition add_text (st : RenderState) (node : CharUnit) : RenderState :=
  let '(textNode, d1) := createTextNode [char node] (document st) in
  {| document := appendChild (currentParent st) textNode d1;
     tagStack := tagStack st;
     parentStack := parentStack st;
     currentParent := currentParent st |}.

(** The body of the outer [for], for one char unit *)
Definition render_char (st : RenderState) (node : CharUnit)
    : option RenderState :=
  let st1 := close_tags (length (tagStack st)) st node in
  st2 ← open_tags st1 node; Some (add_text st2 node).

(** [for (let i = 0; i < this._currentIndex; i++)] over the units from
    [i] on.  Reading past the end yields [undefined], whose [.type]
    raises: the result is then [None], as it is when the host raises. *)
Fixpoint render_loop (rest : list CharUnit) (i : nat) (_currentIndex : number)
    (st : RenderState) : option RenderState :=
  if js_lt (of_nat i) _currentIndex then
    match rest with
    | [] => None
    | node :: rest' =>
        st' ← render_char st node; render_loop rest' (S i) _currentIndex st'
    end
  else Some st.

Definition render_start : RenderState :=
  let '(fragment, d) := createDocumentFragment [] in
  {| document := d; tagStack := []; parentStack := [fragment];
     currentParent := fragment |}.

(** The tree below the fragment *)
Definition built (st : RenderState) : list Node :=
  default [] (subtrees (document st) (childNodes_of (document st) 0)).

(** What ends up below [_contentElement] *)
Definition content_of (st : RenderState) : list Node :=
  map upgraded (built st).

(** [_render()] as a function of [_parsedNodes] and [_currentIndex]: the
    new children of [_contentElement], or [None] for an exception. *)
Definition render (_parsedNodes : list CharUnit) (_currentIndex : number)
    : option (list Node) :=
  content_of <$> render_loop _parsedNodes 0 _currentIndex render_start.

(** ** PlaybackController *)

Inductive Event : Type :=
| NewEvent (type : string)
| NewCustomEvent (type : string) (detail : list (string * number)).

(** The fields of the element, followed by what the host holds for it:
    the children of [_contentElement], the events dispatched so far
    (oldest first), the frame callbacks that are waiting (each one is
    [(ts) => this._animate(ts)], so its handle stands for it) and the
    host's animation-frame callback identifier. *)
Record State : Type := {
  _originalContent : Markup;
  _parsedNodes : list CharUnit;
  _currentIndex : number;
  _isPlaying : bool;
  _isPaused : bool;
  _animationFrame : option nat;
  _lastTimestamp : number;
  _speed : number;
  _minDuration : number;
  _maxDuration : number;
  content : list Node;
  dispatched : list Event;
  frameRequests : list nat;
  frameId : nat
}.

Inductive Outcome : Type :=
| Returned (s : State)
| Threw (s : State).

Definition and_then (o : Outcome) (k : State -> Outcome) : Outcome :=
  match o with
  | Returned s => k s
  | Threw s => Threw s
  end.

Definition state_of (o : Outcome) : State :=
  match o with Returned s | Threw s => s end.

Definition returns (o : Outcome) : bool :=
  match o with Returned _ => true | Threw _ => false end.

(** Assignments to one field *)
Definition set_originalContent (v : Markup) (s : State) : State :=
  {| _originalContent := v; _parsedNodes := _parsedNodes s;
     _currentIndex := _currentIndex s; _isPlaying := _isPlaying s;
     _isPaused := _isPaused s; _animationFrame := _animationFrame s;
     _lastTimestamp := _lastTimestamp s; _speed := _speed s;
     _minDuration := _minDuration s; _maxDuration := _maxDuration s;
     content := content s; dispatched := dispatched s;
     frameRequests := frameRequests s; frameId := frameId s |}.

Definition set_parsedNodes (v : list CharUnit) (s : State) : State :=
  {| _originalContent := _originalContent s; _parsedNodes := v;
     _currentIndex := _currentIndex s; _isPlaying := _isPlaying s;
     _isPaused := _isPaused s; _animationFrame := _animationFrame s;
     _lastTimestamp := _lastTimestamp s; _speed := _speed s;
     _minDuration := _minDuration s; _maxDuration := _maxDuration s;
     content := content s; dispatched := dispatched s;
     frameRequests := frameRequests s; frameId := frameId s |}.

Definition set_currentIndex (v : number) (s : State) : State :=
  {| _originalContent := _originalContent s; _parsedNodes := _parsedNodes s;
     _currentIndex := v; _isPlaying := _isPlaying s;
     _isPaused := _isPaused s; _animationFrame := _animationFrame s;
     _lastTimestamp := _lastTimestamp s; _speed := _speed s;
     _minDuration := _minDuration s; _maxDuration := _maxDuration s;
     content := content s; dispatched := dispatched s;
     frameRequests := frameRequests s; frameId := frameId s |}.

Definition set_isPlaying (v : bool) (s : State) : State :=
  {| _originalContent := _originalContent s; _parsedNodes := _parsedNodes s;
     _currentIndex := _currentIndex s; _isPlaying := v;
     _isPaused := _isPaused s; _animationFrame := _animationFrame s;
     _lastTimestamp := _lastTimestamp s; _speed := _speed s;
     _minDuration := _minDuration s; _maxDuration := _maxDuration s;
     content := content s; dispatched := dispatched s;
     frameRequests := frameRequests s; frameId := frameId s |}.

Definition set_isPaused (v : bool) (s : State) : State :=
  {| _originalContent := _originalContent s; _parsedNodes := _parsedNodes s;
     _currentIndex := _currentIndex s; _isPlaying := _isPlaying s;
     _isPaused := v; _animationFrame := _animationFrame s;
     _lastTimestamp := _lastTimestamp s; _speed := _speed s;
     _minDuration := _minDuration s; _maxDuration := _maxDuration s;
     content := content s; dispatched := dispatched s;
     frameRequests := frameRequests s; frameId := frameId s |}.

Definition set_animationFrame (v : option nat) (s : State) : State :=
  {| _originalContent := _originalContent s; _parsedNodes := _parsedNodes s;
     _currentIndex := _currentIndex s; _isPlaying := _isPlaying s;
     _isPaused := _isPaused s; _animationFrame := v;
     _lastTimestamp := _lastTimestamp s; _speed := _speed s;
     _minDuration := _minDuration s; _maxDuration := _maxDuration s;
     content := content s; dispatched := dispatched s;
     frameRequests := frameRequests s; frameId := frameId s |}.

Definition set_lastTimestamp (v : number) (s : State) : State :=
  {| _originalContent := _originalContent s; _parsedNodes := _parsedNodes s;
     _currentIndex := _currentIndex s; _isPlaying := _isPlaying s;
     _isPaused := _isPaused s; _animationFrame := _animationFrame s;
     _lastTimestamp := v; _speed := _speed s; _minDuration := _minDuration s;
     _maxDuration := _maxDuration s; content := content s;
     dispatched := dispatched s; frameRequests := frameRequests s;
     frameId := frameId s |}.

Definition set_speed (v : number) (s : State) : State :=
  {| _originalContent := _originalContent s; _parsedNodes := _parsedNodes s;
     _currentIndex := _currentIndex s; _isPlaying := _isPlaying s;
     _isPaused := _isPaused s; _animationFrame := _animationFrame s;
     _lastTimestamp := _lastTimestamp s; _speed := v;
     _minDuration := _minDuration s; _maxDuration := _maxDuration s;
     content := content s; dispatched := dispatched s;
     frameRequests := frameRequests s; frameId := frameId s |}.

Definition set_minDuration (v : number) (s : State) : State :=
  {| _originalContent := _originalContent s; _parsedNodes := _parsedNodes s;
     _currentIndex := _currentIndex s; _isPlaying := _isPlaying s;
     _isPaused := _isPaused s; _animationFrame := _animationFrame s;
     _lastTimestamp := _lastTimestamp s; _speed := _speed s;
     _minDuration := v; _maxDuration := _maxDuration s; content := content s;
     dispatched := dispatched s; frameRequests := frameRequests s;
     frameId := frameId s |}.

Definition set_maxDuration (v : number) (s : State) : State :=
  {| _originalContent := _originalContent s; _parsedNodes := _parsedNodes s;
     _currentIndex := _currentIndex s; _isPlaying := _isPlaying s;
     _isPaused := _isPaused s; _animationFrame := _animationFrame s;
     _lastTimestamp := _lastTimestamp s; _speed := _speed s;
     _minDuration := _minDuration s; _maxDuration := v; content := content s;
     dispatched := dispatched s; frameRequests := frameRequests s;
     frameId := frameId s |}.

Definition set_content (v : list Node) (s : State) : State :=
  {| _originalContent := _originalContent s; _parsedNodes := _parsedNodes s;
     _currentIndex := _currentIndex s; _isPlaying := _isPlaying s;
     _isPaused := _isPaused s; _animationFrame := _animationFrame s;
     _lastTimestamp := _lastTimestamp s; _speed := _speed s;
     _minDuration := _minDuration s; _maxDuration := _maxDuration s;
     content := v; dispatched := dispatched s;
     frameRequests := frameRequests s; frameId := frameId s |}.

Definition set_dispatched (v : list Event) (s : State) : State :=
  {| _originalContent := _originalContent s; _parsedNodes := _parsedNodes s;
     _currentIndex := _currentIndex s; _isPlaying := _isPlaying s;
     _isPaused := _isPaused s; _animationFrame := _animationFrame s;
     _lastTimestamp := _lastTimestamp s; _speed := _speed s;
     _minDuration := _minDuration s; _maxDuration := _maxDuration s;
     content := content s; dispatched := v; frameRequests := frameRequests s;
     frameId := frameId s |}.

Definition set_frameRequests (v : list nat) (s : State) : State :=
  {| _originalContent := _originalContent s; _parsedNodes := _parsedNodes s;
     _currentIndex := _currentIndex s; _isPlaying := _isPlaying s;
     _isPaused := _isPaused s; _animationFrame := _animationFrame s;
     _lastTimestamp := _lastTimestamp s; _speed := _speed s;
     _minDuration := _minDuration s; _maxDuration := _maxDuration s;
     content := content s; dispatched := dispatched s; frameRequests := v;
     frameId := frameId s |}.

Definition set_frameId (v : nat) (s : State) : State :=
  {| _originalContent := _originalContent s; _parsedNodes := _parsedNodes s;
     _currentIndex := _currentIndex s; _isPlaying := _isPlaying s;
     _isPaused := _isPaused s; _animationFrame := _animationFrame s;
     _lastTimestamp := _lastTimestamp s; _speed := _speed s;
     _minDuration := _minDuration s; _maxDuration := _maxDuration s;
     content := content s; dispatched := dispatched s;
     frameRequests := frameRequests s; frameId := v |}.

(** *** The host's scheduler and event target *)

(** [requestAnimationFrame(cb)]: the identifier is incremented and is the
    handle, so a handle is never [0]. *)
Definition requestAnimationFrame (s : State) : nat * State :=
  let handle := S (frameId s) in
  (handle, set_frameId handle (set_frameRequests (frameRequests s ++ [handle]) s)).

(** [cancelAnimationFrame(handle)] *)
Definition cancelAnimationFrame (handle : nat) (s : State) : State :=
  set_frameRequests (filter (fun h => h ≠ handle) (frameRequests s)) s.

(** [this.dispatchEvent(e)], listeners being outside the component *)
Definition dispatchEvent (e : Event) (s : State) : State :=
  set_dispatched (dispatched s ++ [e]) s.

(** [this._animationFrame = requestAnimationFrame((ts) => this._animate(ts))] *)
Definition schedule_animate (s : State) : State :=
  let '(handle, s1) := requestAnimationFrame s in
  set_animationFrame (Some handle) s1.

(** *** Private methods *)

(** [this._parsedNodes.length] *)
Definition total (s : State) : nat := length (_parsedNodes s).

(** [_render()]: the fragment replaces the children of [_contentElement]
    once it is complete, so an exception leaves them as they were. *)
Definition _render (s : State) : Outcome :=
  match render (_parsedNodes s) (_currentIndex s) with
  | Some tree => Returned (set_content tree s)
  | None => Threw s
  end.

Definition _calculateCharDelay (s : State) : number :=
  let totalChars := total s in
  if (totalChars =? 0)%nat then of_Z 0 else
  let baseDelay := js_div (of_Z 50) (_speed s) in
  let baseDuration := js_mul baseDelay (of_nat totalChars) in
  if js_gt (_minDuration s) (of_Z 0) && js_lt baseDuration (_minDuration s)
  then js_div (_minDuration s) (of_nat totalChars)
  else if js_lt (_maxDuration s) Infinity
          && js_gt baseDuration (_maxDuration s)
  then js_div (_maxDuration s) (of_nat totalChars)
  else baseDelay.

Definition _cancelAnimation (s : State) : State :=
  match _animationFrame s with
  | Some (S h) => set_animationFrame None (cancelAnimationFrame (S h) s)
  | _ => s
  end.

Definition progress_detail (s : State) : list (string * number) :=
  [("current", _currentIndex s); ("total", of_nat (total s));
   ("progress", js_div (_currentIndex s) (of_nat (total s)))].

Definition seek_detail (s : State) : list (string * number) :=
  [("position", _currentIndex s);
   ("progress", js_div (_currentIndex s) (of_nat (total s)))].

(** [_animate(timestamp)] *)
Definition _animate (timestamp : number) (s : State) : Outcome :=
  if negb (_isPlaying s) || _isPaused s then Returned s else
  let s :=
    if negb (truthy (_lastTimestamp s)) then set_lastTimestamp timestamp s
    else s in
  let elapsed := js_sub timestamp (_lastTimestamp s) in
  let charDelay := _calculateCharDelay s in
  if js_ge elapsed charDelay then
    let s := set_lastTimestamp timestamp s in
    and_then
      (if js_lt (_currentIndex s) (of_nat (total s)) then
         let s := set_currentIndex (js_add (_currentIndex s) (of_Z 1)) s in
         and_then (_render s) (fun s =>
         Returned (dispatchEvent (NewCustomEvent "progress" (progress_detail s)) s))
       else Returned s)
      (fun s =>
       if js_ge (_currentIndex s) (of_nat (total s)) then
         let s := set_isPlaying false s in
         Returned (dispatchEvent (NewEvent "complete") s)
       else Returned (schedule_animate s))
  else Returned (schedule_animate s).

(** *** Public API *)

Definition setText (newContent : Markup) (s : State) : Outcome :=
  let s := _cancelAnimation s in
  let s := set_originalContent newContent s in
  let s := set_currentIndex (of_Z 0) s in
  let s := set_lastTimestamp (of_Z 0) s in
  let s := set_isPlaying false s in
  let s := set_isPaused false s in
  let s := set_parsedNodes (_parseContent (parsed (_originalContent s))) s in
  _render s.

Definition start (s : State) : Outcome :=
  if _isPlaying s then Returned s else
  let s := _cancelAnimation s in
  let s := set_currentIndex (of_Z 0) s in
  let s := set_lastTimestamp (of_Z 0) s in
  let s := set_isPlaying true s in
  let s := set_isPaused false s in
  and_then (_render s) (fun s =>
  let s := dispatchEvent (NewEvent "start") s in
  Returned (schedule_animate s)).

Definition pause (s : State) : Outcome :=
  if negb (_isPlaying s) || _isPaused s then Returned s else
  let s := set_isPaused true s in
  let s := _cancelAnimation s in
  Returned (dispatchEvent (NewEvent "pause") s).

Definition resume (s : State) : Outcome :=
  if negb (_isPlaying s) || negb (_isPaused s) then Returned s else
  let s := set_isPaused false s in
  let s := set_lastTimestamp (of_Z 0) s in
  let s := dispatchEvent (NewEvent "resume") s in
  Returned (schedule_animate s).

Definition complete (s : State) : Outcome :=
  let s := _cancelAnimation s in
  let s := set_currentIndex (of_nat (total s)) s in
  let s := set_isPlaying false s in
  let s := set_isPaused false s in
  and_then (_render s) (fun s =>
  Returned (dispatchEvent (NewEvent "complete") s)).

Definition reset (s : State) : Outcome :=
  let s := _cancelAnimation s in
  let s := set_currentIndex (of_Z 0) s in
  let s := set_lastTimestamp (of_Z 0) s in
  let s := set_isPlaying false s in
  let s := set_isPaused false s in
  and_then (_render s) (fun s =>
  Returned (dispatchEvent (NewEvent "reset") s)).

Definition seek (position : number) (s : State) : Outcome :=
  let wasPlaying := _isPlaying s && negb (_isPaused s) in
  let s := _cancelAnimation s in
  let s :=
    if js_ge position (of_Z 0) && js_le position (of_Z 1) then
      set_currentIndex (Math_floor (js_mul position (of_nat (total s)))) s
    else
      set_currentIndex
        (Math_max (of_Z 0) (Math_min position (of_nat (total s)))) s in
  let s := set_lastTimestamp (of_Z 0) s in
  and_then (_render s) (fun s =>
  let s := dispatchEvent (NewCustomEvent "seek" (seek_detail s)) s in
  if wasPlaying then
    let s := set_isPaused false s in
    Returned (schedule_animate s)
  else Returned s).

(** Getters *)
Definition isPlaying (s : State) : bool := _isPlaying s && negb (_isPaused s).
Definition isPaused (s : State) : bool := _isPaused s.
Definition progress (s : State) : number :=
  if (0 <? total s)%nat then js_div (_currentIndex s) (of_nat (total s))
  else of_Z 0.

(** [attributeChangedCallback(name, oldValue, newValue)]; an attribute
    value is a string or [null], and [parseFloat] is the host's. *)
Definition attributeChangedCallback (parseFloat : option string -> number)
    (attr : string) (oldValue newValue : option string) (s : State) : State :=
  if decide (oldValue = newValue) then s else
  if String.eqb attr "speed" then
    let speed := parseFloat newValue in
    set_speed (if js_gt speed (of_Z 0) then speed else of_Z 1) s
  else if String.eqb attr "min-duration" then
    let minDuration := parseFloat newValue in
    set_minDuration
      (if js_ge minDuration (of_Z 0) then minDuration else of_Z 0) s
  else if String.eqb attr "max-duration" then
    let maxDuration := parseFloat newValue in
    set_maxDuration
      (if js_ge maxDuration (of_Z 0) then maxDuration else Infinity) s
  else s.

(** The element as its constructor leaves it *)
Definition constructed : State :=
  {| _originalContent := {| html := []; parsed := [] |}; _parsedNodes := []; _currentIndex := of_Z 0;
     _isPlaying := false; _isPaused := false; _animationFrame := None;
     _lastTimestamp := of_Z 0; _speed := of_Z 1; _minDuration := of_Z 0;
     _maxDuration := Infinity; content := []; dispatched := [];
     frameRequests := []; frameId := 0 |}.

(** [connectedCallback()]: [innerHTML] is the element's own markup, the
    two booleans are [this.hasAttribute('respect-motion-preference')] and
    [window.matchMedia('(prefers-reduced-motion: reduce)').matches]. *)
Definition connectedCallback (innerHTML : Markup)
    (respectMotionPreference prefersReducedMotion : bool) (s : State)
    : Outcome :=
  let s :=
    match html (_originalContent s) with
    | [] =>
        let s := set_originalContent innerHTML s in
        set_parsedNodes (_parseContent (parsed (_originalContent s))) s
    | _ :: _ => s
    end in
  if respectMotionPreference && prefersReducedMotion then complete s
  else if negb (_isPlaying s) && negb (_isPaused s) then start s
  else Returned s.

(** [disconnectedCallback()] *)
Definition disconnectedCallback (s : State) : State := _cancelAnimation s.

(** The host runs the frame callbacks that wait, each with the time of
    the frame; an exception in one of them is reported and the others
    still run. *)
Definition run_frame (timestamp : number) (s : State) : State :=
  foldl (fun s _ => state_of (_animate timestamp s))
    (set_frameRequests [] s) (frameRequests s).

(** The public operations, as one type *)
Inductive Op : Type :=
| OpStart
| OpPause
| OpResume
| OpComplete
| OpReset
| OpSeek (position : number)
| OpSetText (newContent : Markup).

Definition run_op (op : Op) (s : State) : Outcome :=
  match op with
  | OpStart => start s
  | OpPause => pause s
  | OpResume => resume s
  | OpComplete => complete s
  | OpReset => reset s
  | OpSeek position => seek position s
  | OpSetText newContent => setText newContent s
  end.

(** ** The specification's vocabulary *)

(** The units of a node in document order (depth-first, pre-order), each
    with the ancestry [path] under which it is met; a frame has the
    attributes of its element but for one named [__proto__]. *)
Fixpoint units_of (node : Node) (path : list TagInfo) : list CharUnit :=
  match node with
  | TextNode text => map (fun c => {| char := c; tags := path |}) text
  | ElementNode n a kids | CustomElementNode n a kids =>
      let frame :=
        {| name := toLowerCase n; attributes := delete "__proto__" a |} in
      flat_map (fun kid => units_of kid (path ++ [frame])) kids
  | CommentNode _ => []
  end.

Definition document_order (nodes : list Node) (path : list TagInfo)
    : list CharUnit :=
  flat_map (fun node => units_of node path) nodes.

(** [delayPerChar(totalChars, speed, minDurationMs, maxDurationMs)] of the
    duration policy, on the raw speed. *)
Definition is_NaN (a : number) : bool :=
  match a with NaN => true | _ => false end.

Definition delayPerChar (totalChars : nat) (speed minDurationMs maxDurationMs
    : number) : number :=
  let speed := if js_le speed (of_Z 0) || is_NaN speed then of_Z 1 else speed in
  match totalChars with
  | O => of_Z 0
  | S _ =>
      let baseDelay := js_div (of_Z 50) speed in
      let projected := js_mul baseDelay (of_nat totalChars) in
      if js_lt (of_Z 0) minDurationMs && js_lt projected minDurationMs
      then js_div minDurationMs (of_nat totalChars)
      else if js_lt maxDurationMs Infinity && js_lt maxDurationMs projected
      then js_div maxDurationMs (of_nat totalChars)
      else baseDelay
  end.


(** The invariant of the playback state on its index *)
Definition index_in_range (s : State) : Prop :=
  within (of_Z 0) (of_nat (total s)) (_currentIndex s).

(** The requests that outlive [_cancelAnimation()] *)
Definition not_cancelled (s : State) : list nat :=
  match _animationFrame s with
  | Some (S h) => filter (fun h' => h' ≠ S h) (frameRequests s)
  | _ => frameRequests s
  end.

(** ** What a rendering can show of a source tree *)








(** Whether the renderer keeps the elements it has open ([opened], by
    name) for a character under [path]. *)
Definition continues (opened path : list string) : bool :=
  bool_decide (take (length path) opened = path).



(** ** Names the host takes *)

Definition attribute_names (a : gmap string DOMString) : list string :=
  (map_to_list a).*1.

(** A tag info [_render] can open without the host raising: its name and
    the names of its attributes are valid. *)
Definition accepted_tag (t : TagInfo) : bool :=
  valid_name (name t) && forallb valid_name (attribute_names (attributes t)).

(** A tag info that gives a plain element with the very attributes it
    records: accepted, no custom element, and attribute names in lower
    case, as the parser of the host leaves those of an HTML element. *)
Definition plain_tag (t : TagInfo) : bool :=
  accepted_tag t
  && negb (registered (ascii_lowercase (name t)))
  && forallb (fun k => String.eqb (ascii_lowercase k) k)
       (attribute_names (attributes t)).

Definition accepted (node : CharUnit) : bool := forallb accepted_tag (tags node).
Definition plain (node : CharUnit) : bool := forallb plain_tag (tags node).


(** ** The fragment under construction, as a tree with open nodes *)

Inductive Shape : Type :=
| FragmentShape
| ElementShape (nodeName : string) (attrs : gmap string DOMString).

(** An open node with the children it has so far, the open one apart *)
Abbreviation Frame := (Shape * list Node)%type.

Definition make (sh : Shape) (childNodes : list nat) : DomNode :=
  match sh with
  | FragmentShape => DocumentFragment childNodes
  | ElementShape n a => Element n a childNodes
  end.

(** The open nodes, outermost first, closed into a forest *)
Fixpoint zclose (fs : list Frame) : list Node :=
  match fs with
  | [] => []
  | (sh, kids) :: r =>
      let inner := kids ++ zclose r in
      match sh with
      | FragmentShape => inner
      | ElementShape n a => [ElementNode n a inner]
      end
  end.

Definition add_kids (new : list Node) (f : Frame) : Frame :=
  (fst f, snd f ++ new).

Fixpoint on_last (g : Frame -> Frame) (fs : list Frame) : list Frame :=
  match fs with
  | [] => []
  | f :: r => match r with [] => [g f] | _ => f :: on_last g r end
  end.

(** The innermost open node is closed into its parent *)
Fixpoint z_pop (fs : list Frame) : list Frame :=
  match fs with
  | [] => []
  | g :: r =>
      match r with
      | [f] => [add_kids (zclose [f]) g]
      | _ => g :: z_pop r
      end
  end.

Definition shape_name (f : Frame) : string :=
  match fst f with
  | FragmentShape => EmptyString
  | ElementShape n _ => n
  end.

Fixpoint z_tagsMatch_from (fs : list Frame) (tags2 : list TagInfo) : bool :=
  match fs, tags2 with
  | f :: r1, tagInfo :: r2 =>
      if String.eqb (toLowerCase (shape_name f)) (name tagInfo)
      then z_tagsMatch_from r1 r2 else false
  | _, _ => true
  end.

Definition z_must_close (fs : list Frame) (node : CharUnit) : bool :=
  (length (tags node) <? length (tail fs))%nat
  || ((0 <? length (tail fs))%nat
      && negb (if negb (length (tail fs) =? length (tags node))%nat
               then false else z_tagsMatch_from (tail fs) (tags node))).

Fixpoint z_close_tags (turns : nat) (fs : list Frame) (node : CharUnit)
    : list Frame :=
  if z_must_close fs node then
    match turns with
    | O => fs
    | S turns' => z_close_tags turns' (z_pop fs) node
    end
  else fs.

Definition z_open_tag (fs : list Frame) (tagInfo : TagInfo) : list Frame :=
  fs ++ [(ElementShape (ascii_uppercase (name tagInfo)) (attributes tagInfo), [])].

Definition z_render_char (fs : list Frame) (node : CharUnit) : list Frame :=
  let fs1 := z_close_tags (length (tail fs)) fs node in
  let fs2 := foldl z_open_tag fs1 (drop (length (tail fs1)) (tags node)) in
  on_last (add_kids [TextNode [char node]]) fs2.

Definition z_start : list Frame := [(FragmentShape, [])].

(** The steps of [_render] when the host accepts the names and leaves
    them as they are *)
Definition open_tag_valid (st : RenderState) (tagInfo : TagInfo)
    : RenderState :=
  let '(element, d1) := new_element (name tagInfo) (document st) in
  let d2 :=
    map_fold (fun k v d => put_attribute element k v d) d1
      (attributes tagInfo) in
  opened st element d2.

Definition open_tags_valid (st : RenderState) (node : CharUnit)
    : RenderState :=
  foldl open_tag_valid st (drop (length (tagStack st)) (tags node)).

Definition render_char_valid (st : RenderState) (node : CharUnit)
    : RenderState :=
  let st1 := close_tags (length (tagStack st)) st node in
  add_text (open_tags_valid st1 node) node.

(** A tree read off the store below [hi], children after their parent *)
Fixpoint reads (d : Document) (hi : nat) (t : Node) (ref : nat) : Prop :=
  (ref < hi)%nat /\
  match t with
  | TextNode s => d !! ref = Some (Text s)
  | ElementNode n a ts =>
      exists cs, d !! ref = Some (Element n a cs) /\
        (fix all (ts : list Node) (cs : list nat) : Prop :=
           match ts, cs with
           | [], [] => True
           | t :: ts', c :: cs' =>
               ((ref < c)%nat /\ reads d hi t c) /\ all ts' cs'
           | _, _ => False
           end) ts cs
  | CommentNode _ | CustomElementNode _ _ _ => False
  end.

Fixpoint reads_all (d : Document) (lo hi : nat) (ts : list Node)
    (cs : list nat) : Prop :=
  match ts, cs with
  | [], [] => True
  | t :: ts', c :: cs' =>
      ((lo < c)%nat /\ reads d hi t c) /\ reads_all d lo hi ts' cs'
  | _, _ => False
  end.

Definition is_element (sh : Shape) : Prop :=
  match sh with
  | FragmentShape => False
  | ElementShape _ _ => True
  end.

(** The open nodes [rps] of the store, innermost first, hold what the
    frames [rfs] say: their closed children, read below [hi], then the
    open child [child] if there is one; the outermost is the fragment
    and the others are elements. *)
Fixpoint chain (d : Document) (hi : nat) (child : list nat)
    (rps : list nat) (rfs : list Frame) : Prop :=
  match rps, rfs with
  | [], [] => True
  | p :: rps', (sh, kids) :: rfs' =>
      (p < hi)%nat /\
      (is_element sh <-> rps' <> []) /\
      (exists cs, d !! p = Some (make sh (cs ++ child)) /\
                  reads_all d p hi kids cs) /\
      chain d p [p] rps' rfs'
  | _, _ => False
  end.

(** The frames [fs], outermost first, are what the render state holds in
    its store and stacks. *)
Definition simulates (st : RenderState) (fs : list Frame) : Prop :=
  parentStack st = 0%nat :: tagStack st /\
  last (parentStack st) = Some (currentParent st) /\
  chain (document st) (length (document st)) [] (reverse (parentStack st))
    (reverse fs).

Definition wrap (sh : Shape) (inner : list Node) : list Node :=
  match sh with
  | FragmentShape => inner
  | ElementShape n a => [ElementNode n a inner]
  end.

(** Frames, innermost first, closed around what the innermost holds *)
Fixpoint zclose_r (inner : list Node) (rfs : list Frame) : list Node :=
  match rfs with
  | [] => inner
  | (sh, kids) :: r => zclose_r (wrap sh (kids ++ inner)) r
  end.

(** An open element of the store and its frame *)
Definition opened_as (d : Document) (p : nat) (f : Frame) : Prop :=
  exists n a cs, fst f = ElementShape n a /\ d !! p = Some (Element n a cs).

(** The names [_tagsMatch] compares tag infos with *)
Definition frame_names (fs : list Frame) : list string :=
  map (fun f => toLowerCase (shape_name f)) fs.

Definition tag_names (tags : list TagInfo) : list string := map name tags.

(** The first [n] frames, the others closed into the last of them *)
Definition shut (n : nat) (fs : list Frame) : list Frame :=
  on_last (add_kids (zclose (drop n fs))) (take n fs).

(** How many of the open elements [fs] a unit keeps open *)
Definition kept (fs : list Frame) (node : CharUnit) : nat :=
  if continues (frame_names fs) (tag_names (tags node))
  then length (tags node) else 0%nat.

Definition new_frame (tagInfo : TagInfo) : Frame :=
  (ElementShape (ascii_uppercase (name tagInfo)) (attributes tagInfo), []).


(** Tag infos as the parser makes them: names in lower case *)
Definition lowercase (tags : list TagInfo) : Prop :=
  Forall (fun t => toLowerCase (name t) = name t) tags.

(** A tree under the names [createElement] gives its elements and with
    the attributes the parser records *)
Fixpoint canon (node : Node) : Node :=
  match node with
  | ElementNode n a kids =>
      ElementNode (ascii_uppercase (toLowerCase n)) (delete "__proto__" a)
        (map canon kids)
  | _ => node
  end.


(** The frames-level renderer over a sequence of units *)
Definition z_render (fs : list Frame) (nodes : list CharUnit) : list Frame :=
  foldl z_render_char fs nodes.

(** The unit of a character under a path, and its text node *)
Definition unit_at (path : list TagInfo) (c : CodeUnit) : CharUnit :=
  {| char := c; tags := path |}.


(** The index [seek] computes *)
Definition sought (position : number) (n : nat) : number :=
  if js_ge position (of_Z 0) && js_le position (of_Z 1)
  then Math_floor (js_mul position (of_nat n))
  else Math_max (of_Z 0) (Math_min position (of_nat n)).

(** The time anchor a tick works with, and whether a character is due *)
Definition anchored (timestamp : number) (s : State) : State :=
  if negb (truthy (_lastTimestamp s)) then set_lastTimestamp timestamp s
  else s.

Definition due (timestamp : number) (s : State) : bool :=
  js_ge (js_sub timestamp (_lastTimestamp (anchored timestamp s)))
    (_calculateCharDelay s).

(** ** States used as examples *)

Definition markup (text : string) (nodes : list Node) : Markup :=
  {| html := utf16 text; parsed := nodes |}.

Definition ten_chars : Markup := markup "0123456789" [TextNode (utf16 "0123456789")].
Definition loaded : State := state_of (setText ten_chars constructed).
Definition playing : State := state_of (start loaded).
Definition paused_at_3 : State :=
  state_of (and_then (and_then (start loaded) (seek (of_Z 3))) pause).





(** [<b __proto__="x">Hi</b>] *)
Definition proto_attribute : list Node :=
  [ElementNode "B" {[ "__proto__" := utf16 "x" ]} [TextNode (utf16 "Hi")]].

Definition bold_hi : list Node := [ElementNode "B" ∅ [TextNode (utf16 "Hi")]].

Definition unit_x : CharUnit :=
  {| char := 120%N;
     tags := [{| name := "b"; attributes := {[ "id" := utf16 "0" ]} |}] |}.
Definition unit_y : CharUnit :=
  {| char := 121%N;
     tags := [{| name := "b"; attributes := {[ "id" := utf16 "1" ]} |}] |}.
Definition unit_z : CharUnit :=
  {| char := 122%N;
     tags := [{| name := "b"; attributes := {[ "id" := utf16 "2" ]} |}] |}.



(** ** More vocabulary *)

(** The characters of a tree in document order: the [textContent] of a
    node, to which comments add nothing *)
Fixpoint textContent (node : Node) : DOMString :=
  match node with
  | TextNode text => text
  | ElementNode _ _ kids | CustomElementNode _ _ kids =>
      flat_map textContent kids
  | CommentNode _ => []
  end.

(** Ticks, one after the other, as long as none raises *)
Definition ticks (timestamps : list number) (s : State) : Outcome :=
  foldl (fun o timestamp => and_then o (_animate timestamp)) (Returned s)
    timestamps.

(** The configuration the attributes may leave: a positive speed, a
    minimal duration that is not negative, a maximal duration that is
    not negative or is unbounded *)
Definition config_ok (s : State) : Prop :=
  js_lt (of_Z 0) (_speed s) = true /\
  js_le (of_Z 0) (_minDuration s) = true /\
  js_le (of_Z 0) (_maxDuration s) = true.

(** No frame is requested unless the element plays, and then only the
    one it holds. *)
Definition pending_ok (s : State) : Prop :=
  frameRequests s = [] \/
  (isPlaying s = true /\
   exists h, frameRequests s = [S h] /\ _animationFrame s = Some (S h)).

(** What [pending_ok] says of the requests alone *)
Definition held_only (s : State) : Prop :=
  frameRequests s = [] \/
  exists h, frameRequests s = [S h] /\ _animationFrame s = Some (S h).

(** A playing element sought to 9.5 of its ten characters, after a
    first tick *)
Definition sought_between : State :=
  state_of (and_then (seek (Num (19 # 2)) playing) (_animate (of_Z 1000))).

(** The index counts units: it is a whole number from 0 to [len]. *)
Definition whole_index (s : State) : Prop :=
  exists k, _currentIndex s = of_nat k /\ (k <= total s)%nat.

(** What happens to an element in the course of a run: a public
    operation is called, or the host runs a frame. *)
Inductive Action : Type :=
| Invoke (op : Op)
| Tick (timestamp : number).

Definition perform (s : State) (action : Action) : State :=
  match action with
  | Invoke op => state_of (run_op op s)
  | Tick timestamp => run_frame timestamp s
  end.

Definition run (actions : list Action) (s : State) : State :=
  foldl perform s actions.

(** A position that [seek] takes to a whole index: a fraction of the
    text, a whole number or an infinity *)
Definition whole_position (position : number) : Prop :=
  js_ge position (of_Z 0) && js_le position (of_Z 1) = true \/
  (exists z, position = of_Z z) \/
  position = Infinity \/ position = NegInfinity.

(** The actions of a run that seeks whole positions only and whose
    markups fit an array *)
Definition whole_action (action : Action) : Prop :=
  match action with
  | Invoke (OpSeek position) => whole_position position
  | Invoke (OpSetText newContent) =>
      is_array_length (length (_parseContent (parsed newContent)))
  | _ => True
  end.

(** A playing element of two characters sought to [1 + 2^-52], the
    number next above 1 *)
Definition sought_above_one : State :=
  state_of
    (seek (Num (4503599627370497 # 4503599627370496))
       (state_of
          (start
             (state_of
                (setText (markup "ab" [TextNode (utf16 "ab")]) constructed))))).
Arguments of_Z : simpl never.
Arguments of_nat : simpl never.
Arguments render : simpl never.
Arguments js_div : simpl never.
Arguments js_mul : simpl never.
Arguments js_add : simpl never.
Arguments js_sub : simpl never.
Arguments Math_floor : simpl never.
Arguments Math_max : simpl never.
Arguments Math_min : simpl never.

(** ** Induction on trees *)

Lemma Node_ind (P : Node -> Prop) :
  (forall text, P (TextNode text)) ->
  (forall n a kids, Forall P kids -> P (ElementNode n a kids)) ->
  (forall data, P (CommentNode data)) ->
  (forall n a kids, Forall P kids -> P (CustomElementNode n a kids)) ->
  forall node, P node.
Proof.
  intros Htext Helem Hcomment Hcustom.
  fix IH 1. intros [text | n a kids | data | n a kids].
  - apply Htext.
  - apply Helem. induction kids as [| k kids IHkids]; constructor.
    + apply IH.
    + apply IHkids.
  - apply Hcomment.
  - apply Hcustom. induction kids as [| k kids IHkids]; constructor.
    + apply IH.
    + apply IHkids.
Qed.

(** ** ContentParser *)

(** The attributes a tag info records: all but one named [__proto__] *)
Lemma copied_attributes (a : gmap string DOMString) :
  map_fold (fun k v o => assign o k v) ∅ a = delete "__proto__" a.
Proof.
  apply (map_fold_weak_ind (fun r m => r = delete "__proto__" m)).
  - by rewrite delete_empty.
  - intros i x m r _ ->. unfold assign.
    destruct (String.eqb_spec i "__proto__") as [-> | Hne].
    + by rewrite delete_insert_eq.
    + by rewrite delete_insert_ne.
Qed.

Lemma push_chars (path : list TagInfo) (cs : DOMString) :
  forall parsed,
    foldl (fun parsed c => parsed ++ [{| char := c; tags := path |}]) parsed cs
    = parsed ++ map (fun c => {| char := c; tags := path |}) cs.
Proof.
  induction cs as [| c cs IH]; intros parsed; simpl.
  - by rewrite app_nil_r.
  - rewrite IH. by rewrite <- app_assoc.
Qed.

Lemma traverseNode_appends (node : Node) :
  forall openTags parsed,
    traverseNode node openTags parsed = parsed ++ units_of node openTags.
Proof.
  induction node as [text | n a kids IH | data | n a kids IH] using Node_ind;
    intros openTags parsed; simpl.
  - apply push_chars.
  - rewrite copied_attributes.
    set (path := openTags ++ _).
    revert parsed. induction IH as [| k kids Hk _ IHkids]; intros parsed; simpl.
    + by rewrite app_nil_r.
    + rewrite Hk, IHkids. by rewrite <- app_assoc.
  - by rewrite app_nil_r.
  - rewrite copied_attributes.
    set (path := openTags ++ _).
    revert parsed. induction IH as [| k kids Hk _ IHkids]; intros parsed; simpl.
    + by rewrite app_nil_r.
    + rewrite Hk, IHkids. by rewrite <- app_assoc.
Qed.

Lemma traverseNodes_appends (nodes : list Node) :
  forall openTags parsed,
    _traverseNodes nodes openTags parsed
    = parsed ++ document_order nodes openTags.
Proof.
  unfold _traverseNodes, document_order.
  induction nodes as [| node nodes IH]; intros openTags parsed; simpl.
  - by rewrite app_nil_r.
  - rewrite traverseNode_appends, IH. by rewrite <- app_assoc.
Qed.

Lemma parseContent_document_order (markup : list Node) :
  _parseContent markup = document_order markup [].
Proof. unfold _parseContent. by rewrite traverseNodes_appends. Qed.

(** ** Numbers *)

Lemma Qlt_bool_iff (x y : Q) : Qlt_bool x y = true <-> (x < y)%Q.
Proof.
  unfold Qlt_bool. rewrite negb_true_iff, <- not_true_iff_false, Qle_bool_iff.
  split; [apply Qnot_le_lt | apply Qlt_not_le].
Qed.

Lemma Qlt_bool_false (x y : Q) : Qlt_bool x y = false <-> (y <= x)%Q.
Proof. unfold Qlt_bool. by rewrite negb_false_iff, Qle_bool_iff. Qed.

Lemma Qle_bool_false (x y : Q) : Qle_bool x y = false <-> (y < x)%Q.
Proof.
  rewrite <- not_true_iff_false, Qle_bool_iff.
  split; [apply Qnot_le_lt | apply Qlt_not_le].
Qed.

(** Case analysis on every comparison of rationals in the goal *)
Ltac qcases :=
  repeat match goal with
  | |- context [Qlt_bool ?a ?b] =>
      let H := fresh "Hq" in
      destruct (Qlt_bool a b) eqn:H;
      [apply Qlt_bool_iff in H | apply Qlt_bool_false in H]
  | |- context [Qle_bool ?a ?b] =>
      let H := fresh "Hq" in
      destruct (Qle_bool a b) eqn:H;
      [apply Qle_bool_iff in H | apply Qle_bool_false in H]
  end.

Lemma inject_nat_nonneg (n : nat) : (0 <= inject_Z (Z.of_nat n))%Q.
Proof. change 0%Q with (inject_Z 0). rewrite <- Zle_Qle. lia. Qed.

Lemma js_lt_of_nat (a b : nat) : js_lt (of_nat a) (of_nat b) = (a <? b)%nat.
Proof.
  unfold of_nat, of_Z, js_lt, Qlt_bool, Qle_bool; simpl.
  rewrite !Z.mul_1_r.
  destruct (Nat.ltb_spec a b); [rewrite negb_true_iff | rewrite negb_false_iff];
    [apply Z.leb_gt | apply Z.leb_le]; lia.
Qed.

Lemma js_le_of_nat (a b : nat) : js_le (of_nat a) (of_nat b) = (a <=? b)%nat.
Proof.
  unfold of_nat, of_Z, js_le, Qle_bool; simpl.
  rewrite !Z.mul_1_r.
  destruct (Nat.leb_spec a b); [apply Z.leb_le | apply Z.leb_gt]; lia.
Qed.

Lemma js_gt_positive (a : number) :
  js_gt a (of_Z 0) = negb (js_le a (of_Z 0) || is_NaN a).
Proof.
  destruct a as [| | q |]; try reflexivity.
  unfold js_gt, js_lt, js_le, of_Z, Qlt_bool. by rewrite orb_false_r.
Qed.

Lemma Qred_inject_Z (z : Z) : Qred (inject_Z z) = inject_Z z.
Proof. apply Qred_identity. simpl. apply Z.gcd_1_r. Qed.

(** ** Rounding to binary64 *)

Lemma pow2_pos (e : Z) : (0 < pow2 e)%Q.
Proof. apply Qpower_0_lt. reflexivity. Qed.

Lemma pow2_add (a b : Z) : (pow2 (a + b) == pow2 a * pow2 b)%Q.
Proof. apply Qpower_plus. discriminate. Qed.

Lemma pow2_le (a b : Z) : a <= b -> (pow2 a <= pow2 b)%Q.
Proof. intros H. apply Qpower_le_compat_l; [exact H | discriminate]. Qed.

Lemma pow2_lt (a b : Z) : a < b -> (pow2 a < pow2 b)%Q.
Proof. intros H. apply Qpower_lt_compat_l; [exact H | reflexivity]. Qed.

Lemma pow2_Z (n : Z) : 0 <= n -> (pow2 n == inject_Z (2 ^ n))%Q.
Proof. intros H. symmetry. apply (Zpower_Qpower 2 n H). Qed.

Lemma pow2_opp (a : Z) : (pow2 a * pow2 (- a) == 1)%Q.
Proof. rewrite <- pow2_add, Z.add_opp_diag_r. reflexivity. Qed.

Lemma Qlog2_spec (x : Q) :
  (0 < x)%Q -> (pow2 (Qlog2 x) <= x)%Q /\ (x < pow2 (Qlog2 x + 1))%Q.
Proof.
  intros Hx. destruct x as [a b].
  assert (Ha : 0 < a) by (unfold Qlt in Hx; simpl in Hx; lia).
  unfold Qlog2. cbn [Qnum Qden].
  set (la := Z.log2 a). set (lb := Z.log2 (Z.pos b)).
  destruct (Z.log2_spec a Ha) as [Ha1 Ha2]. fold la in Ha1, Ha2.
  destruct (Z.log2_spec (Z.pos b) ltac:(lia)) as [Hb1 Hb2]. fold lb in Hb1, Hb2.
  assert (Hla : 0 <= la) by apply Z.log2_nonneg.
  assert (Hlb : 0 <= lb) by apply Z.log2_nonneg.
  assert (Hxb : ((a # b) * inject_Z (Z.pos b) == inject_Z a)%Q).
  { unfold Qeq, Qmult, inject_Z. simpl. lia. }
  assert (HA1 : (pow2 la <= inject_Z a)%Q)
    by (rewrite (pow2_Z la Hla); rewrite <- Zle_Qle; lia).
  assert (HA2 : (inject_Z a < pow2 (la + 1))%Q)
    by (rewrite (pow2_Z (la + 1) ltac:(lia)); rewrite <- Zlt_Qlt; rewrite <- Z.add_1_r in Ha2; lia).
  assert (HB1 : (pow2 lb <= inject_Z (Z.pos b))%Q)
    by (rewrite (pow2_Z lb Hlb); rewrite <- Zle_Qle; lia).
  assert (HB2 : (inject_Z (Z.pos b) < pow2 (lb + 1))%Q)
    by (rewrite (pow2_Z (lb + 1) ltac:(lia)); rewrite <- Zlt_Qlt; rewrite <- Z.add_1_r in Hb2; lia).
  assert (Hup : (a # b < pow2 (la - lb + 1))%Q).
  { assert (E : (pow2 (la + 1) == pow2 (la - lb + 1) * pow2 lb)%Q)
      by (rewrite <- pow2_add; f_equiv; lia).
    pose proof (pow2_pos lb). pose proof (pow2_pos (la - lb + 1)).
    generalize dependent (pow2 (la - lb + 1)). generalize dependent (pow2 (la + 1)).
    generalize dependent (pow2 lb). generalize dependent (inject_Z (Z.pos b)).
    generalize dependent (inject_Z a). intros. nra. }
  assert (Hlo : (pow2 (la - lb - 1) < a # b)%Q).
  { assert (E : (pow2 la == pow2 (la - lb - 1) * pow2 (lb + 1))%Q)
      by (rewrite <- pow2_add; f_equiv; lia).
    pose proof (pow2_pos (lb + 1)). pose proof (pow2_pos (la - lb - 1)).
    generalize dependent (pow2 (la - lb - 1)). generalize dependent (pow2 la).
    generalize dependent (pow2 (lb + 1)). generalize dependent (inject_Z (Z.pos b)).
    generalize dependent (inject_Z a). intros. nra. }
  destruct (Qle_bool (pow2 (la - lb)) (a # b)) eqn:Ht.
  - apply Qle_bool_iff in Ht. split; [exact Ht | exact Hup].
  - assert (Hlt : (a # b < pow2 (la - lb))%Q).
    { apply Qnot_le_lt. intros H. apply Qle_bool_iff in H. congruence. }
    split; [apply Qlt_le_weak; exact Hlo |].
    replace (la - lb - 1 + 1) with (la - lb) by lia. exact Hlt.
Qed.

(** ** Rounding to the nearest integer *)

Lemma nearest_even_comp (x y : Q) :
  (x == y)%Q -> nearest_even x = nearest_even y.
Proof.
  intros E. unfold nearest_even. rewrite (Qfloor_comp _ _ E).
  assert (E' : (x - inject_Z (Qfloor y) == y - inject_Z (Qfloor y))%Q)
    by (rewrite E; reflexivity).
  rewrite (Qcompare_comp _ _ E' _ _ (Qeq_refl _)). reflexivity.
Qed.

Lemma nearest_even_Z (z : Z) : nearest_even (inject_Z z) = z.
Proof.
  unfold nearest_even. rewrite Qfloor_Z.
  assert (H : (inject_Z z - inject_Z z ?= 1 # 2)%Q = Lt).
  { rewrite <- Qlt_alt. lra. }
  rewrite H. reflexivity.
Qed.

Lemma nearest_even_floor (x : Q) :
  Qfloor x <= nearest_even x <= Qfloor x + 1.
Proof.
  unfold nearest_even.
  destruct (x - inject_Z (Qfloor x) ?= 1 # 2)%Q; [destruct (Z.even _) | |]; lia.
Qed.

Lemma nearest_even_le_Z (x : Q) (z : Z) :
  (x <= inject_Z z)%Q -> nearest_even x <= z.
Proof.
  intros H. pose proof (Qfloor_resp_le _ _ H) as Hf. rewrite Qfloor_Z in Hf.
  destruct (Z.eq_dec (Qfloor x) z) as [E | N].
  - unfold nearest_even.
    assert (Hc : (x - inject_Z (Qfloor x) ?= 1 # 2)%Q = Lt).
    { rewrite <- Qlt_alt. rewrite E. lra. }
    rewrite Hc. lia.
  - pose proof (nearest_even_floor x). lia.
Qed.

Lemma nearest_even_ge_Z (x : Q) (z : Z) :
  (inject_Z z <= x)%Q -> z <= nearest_even x.
Proof.
  intros H. pose proof (Qfloor_resp_le _ _ H) as Hf. rewrite Qfloor_Z in Hf.
  pose proof (nearest_even_floor x). lia.
Qed.

(** ** Rounding to binary64 *)

Lemma Qabs_pos_lt (x : Q) : ~ (x == 0)%Q -> (0 < Qabs x)%Q.
Proof.
  intros Hx. apply Qabs_case; intros H.
  - destruct (Qlt_le_dec 0 x) as [L | L]; [exact L |].
    exfalso. apply Hx. apply Qle_antisym; assumption.
  - destruct (Qlt_le_dec x 0) as [L | L]; [lra |].
    exfalso. apply Hx. apply Qle_antisym; assumption.
Qed.

Lemma last_place_below (x : Q) (b : Z) :
  ~ (x == 0)%Q -> (Qabs x < pow2 b)%Q -> -1074 <= b - 53 ->
  last_place x <= b - 53.
Proof.
  intros Hx Hb Hmin. unfold last_place.
  destruct (Qlog2_spec _ (Qabs_pos_lt x Hx)) as [Hlo _].
  assert (Hl : Qlog2 (Qabs x) < b).
  { apply (Qpower_lt_compat_l_inv 2); [| reflexivity].
    apply Qle_lt_trans with (1 := Hlo). exact Hb. }
  lia.
Qed.

Lemma last_place_min (x : Q) : -1074 <= last_place x.
Proof. unfold last_place. lia. Qed.

Lemma scaled_Z (z e : Z) :
  e <= 0 -> (inject_Z z / pow2 e == inject_Z (z * 2 ^ (- e)))%Q.
Proof.
  intros He. rewrite inject_Z_mult, <- (pow2_Z (- e)) by lia.
  pose proof (pow2_opp e) as Ho. pose proof (pow2_pos e) as Hp.
  apply Qmult_inj_r with (z := pow2 e); [lra |].
  rewrite Qmult_comm, Qmult_div_r by lra.
  rewrite <- Qmult_assoc, (Qmult_comm (pow2 (- e))), Ho. ring.
Qed.

Lemma unscaled_Z (z e : Z) :
  e <= 0 -> (inject_Z (z * 2 ^ (- e)) * pow2 e == inject_Z z)%Q.
Proof.
  intros He. rewrite inject_Z_mult, <- (pow2_Z (- e)) by lia.
  pose proof (pow2_opp e) as Ho.
  rewrite <- Qmult_assoc, (Qmult_comm (pow2 (- e))), Ho. ring.
Qed.

Lemma Qabs_inject_Z_lt (z b : Z) :
  0 <= b -> Z.abs z < 2 ^ b -> (Qabs (inject_Z z) < pow2 b)%Q.
Proof.
  intros Hb Hz. rewrite pow2_Z by exact Hb.
  change (Qabs (inject_Z z)) with (inject_Z (Z.abs z)).
  rewrite <- Zlt_Qlt. exact Hz.
Qed.

Lemma round64_rounded (x : Q) :
  round64 x =
    if Qle_bool (pow2 1024) (rounded x) then Infinity
    else if Qle_bool (rounded x) (- pow2 1024) then NegInfinity
    else Num (Qred (rounded x)).
Proof. reflexivity. Qed.

Lemma round64_finite (x y : Q) :
  (rounded x == y)%Q -> (- pow2 1024 < y)%Q -> (y < pow2 1024)%Q ->
  round64 x = Num (Qred y).
Proof.
  intros E Hlo Hhi. rewrite round64_rounded.
  destruct (Qle_bool (pow2 1024) (rounded x)) eqn:H1.
  { apply Qle_bool_iff in H1. rewrite E in H1. lra. }
  destruct (Qle_bool (rounded x) (- pow2 1024)) eqn:H2.
  { apply Qle_bool_iff in H2. rewrite E in H2. lra. }
  f_equal. apply Qred_complete. exact E.
Qed.

Lemma rounded_Z (z : Z) :
  Z.abs z < 2 ^ 53 -> (rounded (inject_Z z) == inject_Z z)%Q.
Proof.
  intros Hz. destruct (Z.eq_dec z 0) as [-> | Hn]; [reflexivity |].
  assert (Hx : ~ (inject_Z z == 0)%Q).
  { intros E. apply Hn. unfold Qeq in E. simpl in E. lia. }
  pose proof (last_place_below (inject_Z z) 53 Hx
                (Qabs_inject_Z_lt z 53 ltac:(lia) Hz) ltac:(lia)) as He.
  unfold rounded. set (e := last_place (inject_Z z)) in *.
  assert (He0 : e <= 0) by lia.
  rewrite (nearest_even_comp _ _ (scaled_Z z e He0)), nearest_even_Z.
  apply unscaled_Z. exact He0.
Qed.

Lemma pow2_53_1024 : (pow2 53 < pow2 1024)%Q.
Proof. apply pow2_lt. lia. Qed.

(** A whole number below [2^53] is a binary64 number. *)
Lemma round64_Z (z : Z) :
  Z.abs z < 2 ^ 53 -> round64 (inject_Z z) = Num (inject_Z z).
Proof.
  intros Hz. rewrite <- (Qred_inject_Z z) at 2.
  pose proof (Qabs_inject_Z_lt z 53 ltac:(lia) Hz) as Ha.
  pose proof pow2_53_1024 as Hp.
  assert (Hb : (- pow2 53 < inject_Z z)%Q /\ (inject_Z z < pow2 53)%Q).
  { apply Qabs_Qlt_condition. exact Ha. }
  apply round64_finite; [apply rounded_Z; exact Hz | lra | lra].
Qed.

Lemma rounded_nonneg (x : Q) : (0 <= x)%Q -> (0 <= rounded x)%Q.
Proof.
  intros Hx. unfold rounded. pose proof (pow2_pos (last_place x)) as Hp.
  assert (Hm : 0 <= nearest_even (x / pow2 (last_place x))).
  { apply nearest_even_ge_Z. apply Qle_shift_div_l; [exact Hp |].
    change (inject_Z 0) with 0%Q. lra. }
  apply Qmult_le_0_compat; [| lra].
  change 0%Q with (inject_Z 0). rewrite <- Zle_Qle. exact Hm.
Qed.

Lemma rounded_nonpos (x : Q) : (x <= 0)%Q -> (rounded x <= 0)%Q.
Proof.
  intros Hx. unfold rounded. pose proof (pow2_pos (last_place x)) as Hp.
  assert (Hm : nearest_even (x / pow2 (last_place x)) <= 0).
  { apply nearest_even_le_Z. apply Qle_shift_div_r; [exact Hp |].
    change (inject_Z 0) with 0%Q. lra. }
  assert (Hq : (inject_Z (nearest_even (x / pow2 (last_place x))) <= 0)%Q).
  { change 0%Q with (inject_Z 0). rewrite <- Zle_Qle. exact Hm. }
  nra.
Qed.

Lemma rounded_le_Z (x : Q) (z : Z) :
  0 <= z < 2 ^ 53 -> (x <= inject_Z z)%Q -> (rounded x <= inject_Z z)%Q.
Proof.
  intros Hz Hx.
  assert (Hz0 : (0 <= inject_Z z)%Q)
    by (change 0%Q with (inject_Z 0); rewrite <- Zle_Qle; lia).
  destruct (Qlt_le_dec 0 x) as [Hpos | Hneg].
  2:{ pose proof (rounded_nonpos x Hneg). lra. }
  assert (Hx0 : ~ (x == 0)%Q) by lra.
  assert (Ha : (Qabs x < pow2 53)%Q).
  { rewrite Qabs_pos by lra. rewrite pow2_Z by lia.
    apply Qle_lt_trans with (1 := Hx). rewrite <- Zlt_Qlt. lia. }
  pose proof (last_place_below x 53 Hx0 Ha ltac:(lia)) as He.
  unfold rounded. set (e := last_place x) in *.
  assert (He0 : e <= 0) by lia.
  pose proof (pow2_pos e) as Hp.
  assert (Hm : nearest_even (x / pow2 e) <= z * 2 ^ (- e)).
  { apply nearest_even_le_Z. rewrite <- (scaled_Z z e He0).
    apply Qmult_le_compat_r; [exact Hx |].
    apply Qlt_le_weak, Qinv_lt_0_compat. exact Hp. }
  rewrite <- (unscaled_Z z e He0).
  apply Qmult_le_compat_r; [| lra]. rewrite <- Zle_Qle. exact Hm.
Qed.

(** Rounding keeps a number that is not negative so, and below a whole
    number that is a binary64 number. *)
Lemma round64_nonneg (x : Q) :
  (0 <= x)%Q -> js_le (Num 0) (round64 x) = true.
Proof.
  intros Hx. pose proof (rounded_nonneg x Hx) as Hr.
  pose proof (pow2_pos 1024) as Hp. rewrite round64_rounded.
  destruct (Qle_bool (pow2 1024) (rounded x)); [reflexivity |].
  destruct (Qle_bool (rounded x) (- pow2 1024)) eqn:H2.
  { apply Qle_bool_iff in H2. lra. }
  cbn [js_le]. apply Qle_bool_iff. rewrite Qred_correct. exact Hr.
Qed.

Lemma round64_le_Z (x : Q) (z : Z) :
  0 <= z < 2 ^ 53 -> (x <= inject_Z z)%Q ->
  js_le (round64 x) (Num (inject_Z z)) = true.
Proof.
  intros Hz Hx. pose proof (rounded_le_Z x z Hz Hx) as Hr.
  pose proof pow2_53_1024 as Hp.
  assert (Hz' : (inject_Z z < pow2 53)%Q)
    by (rewrite pow2_Z by lia; rewrite <- Zlt_Qlt; lia).
  rewrite round64_rounded.
  destruct (Qle_bool (pow2 1024) (rounded x)) eqn:H1.
  { apply Qle_bool_iff in H1. lra. }
  destruct (Qle_bool (rounded x) (- pow2 1024)); [reflexivity |].
  cbn [js_le]. apply Qle_bool_iff. rewrite Qred_correct. exact Hr.
Qed.

(** ** Arithmetic on whole numbers *)

Lemma small_nat (n : nat) : is_array_length n -> Z.abs (Z.of_nat n) < 2 ^ 53.
Proof. unfold is_array_length. lia. Qed.

Lemma js_add_of_nat (a b : nat) :
  Z.of_nat (a + b) < 2 ^ 53 ->
  js_add (of_nat a) (of_nat b) = of_nat (a + b).
Proof.
  intros H. unfold of_nat, of_Z, js_add.
  replace (inject_Z (Z.of_nat a) + inject_Z (Z.of_nat b))%Q
    with (inject_Z (Z.of_nat (a + b))).
  - apply round64_Z. lia.
  - unfold Qplus, inject_Z. cbn [Qnum Qden Pos.mul]. f_equal. lia.
Qed.

Lemma js_mul_1_of_nat (n : nat) :
  Z.of_nat n < 2 ^ 53 -> js_mul (of_Z 1) (of_nat n) = of_nat n.
Proof.
  intros H. unfold of_nat, of_Z, js_mul.
  replace (inject_Z 1 * inject_Z (Z.of_nat n))%Q with (inject_Z (Z.of_nat n)).
  - apply round64_Z. lia.
  - unfold Qmult, inject_Z. cbn [Qnum Qden Pos.mul]. f_equal. lia.
Qed.


(** A clamped number lies in the interval, unless it is NaN. *)
Lemma clamp_within (x : number) (n : nat) :
  x <> NaN ->
  within (of_Z 0) (of_nat n) (Math_max (of_Z 0) (Math_min x (of_nat n))).
Proof.
  pose proof (inject_nat_nonneg n) as Hn. intros Hx.
  destruct x as [| | q |]; try done;
    unfold within, Math_min, Math_max, of_nat, of_Z, js_lt, js_le;
    change (inject_Z 0) with 0%Q in *; qcases; simpl;
    rewrite ?Qle_bool_iff; split; try done; lra.
Qed.

(** A rounded number between two numbers that are not rounded away *)
Lemma round64_between (x : Q) (z : Z) :
  0 <= z < 2 ^ 53 -> (0 <= x)%Q -> (x <= inject_Z z)%Q ->
  exists r, round64 x = Num r /\ (0 <= r)%Q /\ (r <= inject_Z z)%Q.
Proof.
  intros Hz H0 H1.
  pose proof (round64_nonneg x H0) as Hlo.
  pose proof (round64_le_Z x z Hz H1) as Hhi.
  destruct (round64 x) as [| | r |]; try done.
  exists r. cbn [js_le] in Hlo, Hhi. apply Qle_bool_iff in Hlo, Hhi. done.
Qed.

Lemma floor_within (q : Q) (n : nat) :
  Z.of_nat n < 2 ^ 53 -> (0 <= q)%Q -> (q <= 1)%Q ->
  within (of_Z 0) (of_nat n) (Math_floor (js_mul (Num q) (of_nat n))).
Proof.
  pose proof (inject_nat_nonneg n) as Hn. intros Hsmall H0 H1.
  unfold js_mul, of_nat, of_Z.
  destruct (round64_between (q * inject_Z (Z.of_nat n)) (Z.of_nat n))
    as (r & -> & Hr0 & Hr1); [lia | nra | nra |].
  unfold within, Math_floor, of_Z, js_le.
  rewrite !Qle_bool_iff, <- !Zle_Qle. split.
  - change 0 with (Qfloor (inject_Z 0)). by apply Qfloor_resp_le.
  - rewrite <- (Qfloor_Z (Z.of_nat n)). by apply Qfloor_resp_le.
Qed.

(** The floor of a number in range is a count in range. *)
Lemma floor_count (q : Q) (n : nat) :
  Z.of_nat n < 2 ^ 53 -> (0 <= q)%Q -> (q <= 1)%Q ->
  exists k, (k <= n)%nat /\
    Math_floor (js_mul (Num q) (of_nat n)) = of_nat k.
Proof.
  pose proof (inject_nat_nonneg n) as Hn. intros Hsmall H0 H1.
  unfold js_mul, of_nat, of_Z.
  destruct (round64_between (q * inject_Z (Z.of_nat n)) (Z.of_nat n))
    as (r & -> & Hr0 & Hr1); [lia | nra | nra |].
  assert (Hf0 : 0 <= Qfloor r).
  { change 0 with (Qfloor (inject_Z 0)). by apply Qfloor_resp_le. }
  assert (Hf1 : Qfloor r <= Z.of_nat n).
  { rewrite <- (Qfloor_Z (Z.of_nat n)). by apply Qfloor_resp_le. }
  exists (Z.to_nat (Qfloor r)). split; [lia |].
  unfold Math_floor, of_Z. by rewrite Z2Nat.id.
Qed.

Lemma ratio_within (x : number) (n : nat) :
  (0 < n)%nat -> within (of_Z 0) (of_nat n) x ->
  within (of_Z 0) (of_Z 1) (js_div x (of_nat n)).
Proof.
  intros Hpos [Hlo Hhi].
  assert (Hn : (0 < inject_Z (Z.of_nat n))%Q).
  { change 0%Q with (inject_Z 0). rewrite <- Zlt_Qlt. lia. }
  destruct x as [| | q |]; try done.
  unfold within, js_div, of_nat, of_Z in *. cbn [js_le] in Hlo, Hhi.
  apply Qle_bool_iff in Hlo, Hhi. change (inject_Z 0) with 0%Q in *.
  destruct (Qeq_bool (inject_Z (Z.of_nat n)) 0) eqn:Hz.
  { apply Qeq_bool_iff in Hz. lra. }
  destruct (round64_between (q / inject_Z (Z.of_nat n)) 1)
    as (r & -> & Hr0 & Hr1); [lia | | |].
  - apply Qle_shift_div_l; [done | lra].
  - apply Qle_shift_div_r; [done |]. change (inject_Z 1) with 1%Q. lra.
  - cbn [js_le]. rewrite !Qle_bool_iff. done.
Qed.

(** ** The host's part in [_render] *)

Lemma upper_lower_char (c : ascii) :
  ascii_upper_char (ascii_lower_char c) = ascii_upper_char c.
Proof. by destruct c as [[] [] [] [] [] [] [] []]. Qed.

Lemma ascii_uppercase_lowercase (s : string) :
  ascii_uppercase (ascii_lowercase s) = ascii_uppercase s.
Proof.
  unfold ascii_uppercase, ascii_lowercase.
  induction s as [| c s IH]; [done |]. cbn.
  by rewrite upper_lower_char, IH.
Qed.

Lemma createElement_valid (localName : string) (d : Document) :
  valid_name localName = true ->
  createElement localName d = Some (new_element localName d).
Proof.
  intros H. unfold createElement, new_element.
  by rewrite H, ascii_uppercase_lowercase.
Qed.

Lemma createElement_invalid (localName : string) (d : Document) :
  valid_name localName = false -> createElement localName d = None.
Proof. intros H. unfold createElement. by rewrite H. Qed.

Lemma setAttributes_valid (element : nat) (l : list (string * DOMString)) :
  forallb valid_name l.*1 = true ->
  forall d,
    foldr (uncurry (fun k v d => d ≫= setAttribute element k v)) (Some d) l
    = Some (foldr (uncurry (fun k v d =>
                      put_attribute element (ascii_lowercase k) v d)) d l).
Proof.
  induction l as [| [k v] l IH]; intros Hl d; [done |].
  cbn in Hl. apply andb_true_iff in Hl as [Hk Hl].
  cbn. rewrite IH by done. cbn.
  unfold setAttribute. by rewrite Hk.
Qed.

Lemma setAttributes_lower (element : nat) (l : list (string * DOMString)) :
  forallb (fun k => String.eqb (ascii_lowercase k) k) l.*1 = true ->
  forall d,
    foldr (uncurry (fun k v d =>
             put_attribute element (ascii_lowercase k) v d)) d l
    = foldr (uncurry (put_attribute element)) d l.
Proof.
  induction l as [| [k v] l IH]; intros Hl d; [done |].
  cbn in Hl. apply andb_true_iff in Hl as [Hk%String.eqb_eq Hl].
  cbn. rewrite IH by done. unfold ascii_lowercase in *. by rewrite Hk.
Qed.

Lemma setAttributes_invalid (element : nat) (l : list (string * DOMString)) :
  forallb valid_name l.*1 = false ->
  forall d,
    foldr (uncurry (fun k v d => d ≫= setAttribute element k v)) (Some d) l
    = None.
Proof.
  induction l as [| [k v] l IH]; intros Hl d; [done |].
  cbn in Hl. cbn.
  destruct (valid_name k) eqn:Hk; cbn in Hl.
  - by rewrite IH.
  - destruct (foldr _ _ l); [| done]. cbn. unfold setAttribute. by rewrite Hk.
Qed.

(** [open_tag] returns exactly when the tag info is accepted. *)
Lemma open_tag_accepted (st : RenderState) (tagInfo : TagInfo) :
  accepted_tag tagInfo = true ->
  exists d, open_tag st tagInfo = Some (opened st (length (document st)) d).
Proof.
  unfold accepted_tag, attribute_names.
  intros [Hn Ha]%andb_true_iff. unfold open_tag.
  rewrite createElement_valid by done. cbn.
  rewrite map_fold_foldr, setAttributes_valid by done. cbn. by eexists.
Qed.

Lemma open_tag_refused (st : RenderState) (tagInfo : TagInfo) :
  accepted_tag tagInfo = false -> open_tag st tagInfo = None.
Proof.
  unfold accepted_tag, attribute_names. intros H. unfold open_tag.
  destruct (valid_name (name tagInfo)) eqn:Hn.
  - rewrite createElement_valid by done. cbn.
    rewrite map_fold_foldr, setAttributes_invalid; done.
  - by rewrite createElement_invalid.
Qed.

Lemma plain_accepted_tag (tagInfo : TagInfo) :
  plain_tag tagInfo = true -> accepted_tag tagInfo = true.
Proof. unfold plain_tag. by intros [[H _]%andb_true_iff _]%andb_true_iff. Qed.

Lemma plain_accepted (node : CharUnit) :
  plain node = true -> accepted node = true.
Proof.
  unfold plain, accepted. rewrite !forallb_forall.
  intros H t Ht. apply plain_accepted_tag. by apply H.
Qed.

(** On a plain tag info the host does what [open_tag_valid] says. *)
Lemma open_tag_plain (st : RenderState) (tagInfo : TagInfo) :
  plain_tag tagInfo = true ->
  open_tag st tagInfo = Some (open_tag_valid st tagInfo).
Proof.
  intros Hp. pose proof (plain_accepted_tag _ Hp) as Ha.
  unfold plain_tag in Hp. apply andb_true_iff in Hp as [_ Hl].
  unfold accepted_tag, attribute_names in *.
  apply andb_true_iff in Ha as [Hn Ha]. unfold open_tag, open_tag_valid.
  rewrite createElement_valid by done. cbn.
  rewrite !map_fold_foldr, setAttributes_valid by done. cbn.
  by rewrite setAttributes_lower.
Qed.

Lemma open_tags_fold_accepted (tags : list TagInfo) :
  forallb accepted_tag tags = true ->
  forall st, exists st',
    foldl (fun st tagInfo => st ≫= fun st => open_tag st tagInfo) (Some st)
      tags = Some st'.
Proof.
  induction tags as [| t tags IH]; intros Ht st; [by eexists |].
  cbn in Ht. apply andb_true_iff in Ht as [Ha Ht].
  cbn [foldl mbind option_bind].
  destruct (open_tag_accepted st t Ha) as [d ->]. by apply IH.
Qed.

Lemma open_tags_fold_plain (tags : list TagInfo) :
  forallb plain_tag tags = true ->
  forall st,
    foldl (fun st tagInfo => st ≫= fun st => open_tag st tagInfo) (Some st)
      tags = Some (foldl open_tag_valid st tags).
Proof.
  induction tags as [| t tags IH]; intros Ht st; [done |].
  cbn in Ht. apply andb_true_iff in Ht as [Ha Ht].
  cbn [foldl mbind option_bind].
  rewrite open_tag_plain by done. by apply IH.
Qed.

Lemma forallb_drop {A : Type} (f : A -> bool) (n : nat) (l : list A) :
  forallb f l = true -> forallb f (drop n l) = true.
Proof.
  rewrite !forallb_forall. intros H x Hx. apply H.
  apply list_elem_of_In. apply list_elem_of_In in Hx.
  by apply (subseteq_drop n l).
Qed.

Lemma render_char_accepted (st : RenderState) (node : CharUnit) :
  accepted node = true -> exists st', render_char st node = Some st'.
Proof.
  intros Ha. unfold render_char, open_tags.
  destruct (open_tags_fold_accepted
              (drop (length (tagStack (close_tags (length (tagStack st)) st node)))
                 (tags node)) (forallb_drop _ _ _ Ha)
              (close_tags (length (tagStack st)) st node)) as [st' ->].
  by eexists.
Qed.

Lemma render_char_plain (st : RenderState) (node : CharUnit) :
  plain node = true -> render_char st node = Some (render_char_valid st node).
Proof.
  intros Ha. unfold render_char, render_char_valid, open_tags, open_tags_valid.
  by rewrite open_tags_fold_plain by (by apply forallb_drop).
Qed.

(** ** The render loop *)

Lemma forallb_take {A : Type} (f : A -> bool) (n : nat) (l : list A) :
  forallb f l = true -> forallb f (take n l) = true.
Proof.
  rewrite !forallb_forall. intros H x Hx. apply H.
  apply list_elem_of_In. apply list_elem_of_In in Hx.
  by apply (subseteq_take n l).
Qed.

Lemma render_loop_take (nodes : list CharUnit) :
  forall k i st, (k <= length nodes)%nat ->
    forallb plain (take k nodes) = true ->
    render_loop nodes i (of_nat (i + k)) st
    = Some (foldl render_char_valid st (take k nodes)).
Proof.
  induction nodes as [| node nodes IH]; intros k i st Hk Hp;
    cbn [render_loop length] in *; rewrite js_lt_of_nat.
  - assert (k = 0)%nat as -> by lia.
    by rewrite Nat.add_0_r, Nat.ltb_irrefl.
  - destruct k as [| k]; cbn [take foldl] in *.
    + by rewrite Nat.add_0_r, Nat.ltb_irrefl.
    + cbn in Hp. apply andb_true_iff in Hp as [Hnode Hp].
      destruct (Nat.ltb_spec i (i + S k)) as [_ | ?]; [| lia].
      rewrite render_char_plain by done. cbn.
      replace (i + S k)%nat with (S i + k)%nat by lia.
      apply IH; [lia | done].
Qed.

Lemma render_take (nodes : list CharUnit) (k : nat) :
  (k <= length nodes)%nat -> forallb plain (take k nodes) = true ->
  render nodes (of_nat k)
  = Some (content_of (foldl render_char_valid render_start (take k nodes))).
Proof.
  intros Hk Hp. unfold render.
  pose proof (render_loop_take nodes k 0 render_start Hk Hp) as H.
  rewrite Nat.add_0_l in H. by rewrite H.
Qed.

Lemma render_nothing (nodes : list CharUnit) :
  render nodes (of_Z 0) = Some [].
Proof. destruct nodes; reflexivity. Qed.

(** An index that is a count reads the units before it only. *)
Lemma render_loop_cut (nodes : list CharUnit) :
  forall k i st, (k <= length nodes)%nat ->
    render_loop nodes i (of_nat (i + k)) st
    = render_loop (take k nodes) i (of_nat (i + k)) st.
Proof.
  induction nodes as [| node nodes IH]; intros k i st Hk;
    cbn [length] in *.
  - by rewrite take_nil.
  - destruct k as [| k]; cbn [take render_loop];
      rewrite js_lt_of_nat.
    + by rewrite Nat.add_0_r, Nat.ltb_irrefl.
    + destruct (Nat.ltb_spec i (i + S k)) as [_ | ?]; [| lia].
      destruct (render_char st node) as [st' |]; [| done]. cbn.
      replace (i + S k)%nat with (S i + k)%nat by lia.
      apply IH. lia.
Qed.

Lemma js_lt_le_absurd (a b : number) :
  js_lt a b = true -> js_le b a = true -> False.
Proof.
  destruct a as [| | x |], b as [| | y |]; simpl; try done.
  rewrite Qlt_bool_iff, Qle_bool_iff. lra.
Qed.

Lemma js_le_of_nat_mono (x : number) (a b : nat) :
  (a <= b)%nat -> js_le x (of_nat a) = true -> js_le x (of_nat b) = true.
Proof.
  intros Hab. destruct x as [| | q |]; simpl; try done.
  rewrite !Qle_bool_iff. intros Hq.
  apply Qle_trans with (1 := Hq). rewrite <- Zle_Qle. lia.
Qed.

(** The loop ends without an exception when the host accepts the names
    of the units and the index is NaN or at most the number of units. *)
Lemma render_loop_returns (index : number) (rest : list CharUnit) :
  forallb accepted rest = true ->
  forall i st,
    index = NaN \/ js_le index (of_nat (i + length rest)) = true ->
    exists st', render_loop rest i index st = Some st'.
Proof.
  induction rest as [| node rest IH]; intros Ha i st Hidx;
    cbn [render_loop length] in *.
  - destruct (js_lt (of_nat i) index) eqn:Hlt; [| by eexists].
    exfalso. destruct Hidx as [-> | Hle]; [done |].
    rewrite Nat.add_0_r in Hle. eapply js_lt_le_absurd; eauto.
  - cbn in Ha. apply andb_true_iff in Ha as [Hnode Ha].
    destruct (js_lt (of_nat i) index) eqn:Hlt; [| by eexists].
    destruct (render_char_accepted st node Hnode) as [st' ->]. cbn.
    apply IH; [done |]. destruct Hidx as [-> | Hle]; [by left | right].
    by replace (S i + length rest)%nat with (i + S (length rest))%nat by lia.
Qed.

Lemma render_returns (nodes : list CharUnit) (index : number) :
  forallb accepted nodes = true ->
  index = NaN \/ js_le index (of_nat (length nodes)) = true ->
  exists tree, render nodes index = Some tree.
Proof.
  intros Ha Hidx. unfold render.
  destruct (render_loop_returns index nodes Ha 0 render_start Hidx) as [st ->].
  by eexists.
Qed.

(** ** PlaybackController *)

Lemma cancelled_fields (s : State) :
  let s' := _cancelAnimation s in
  _originalContent s' = _originalContent s /\ _parsedNodes s' = _parsedNodes s /\
  _currentIndex s' = _currentIndex s /\ _isPlaying s' = _isPlaying s /\
  _isPaused s' = _isPaused s /\ _lastTimestamp s' = _lastTimestamp s /\
  _speed s' = _speed s /\ _minDuration s' = _minDuration s /\
  _maxDuration s' = _maxDuration s /\ content s' = content s /\
  dispatched s' = dispatched s /\ frameId s' = frameId s /\
  frameRequests s' = not_cancelled s.
Proof.
  unfold _cancelAnimation, not_cancelled.
  destruct (_animationFrame s) as [[| h] |]; simpl; repeat split; reflexivity.
Qed.

(** Unfolds what [_cancelAnimation] leaves of a state *)
Ltac cancelled s :=
  let H := fresh "Hc" in
  pose proof (cancelled_fields s) as H; cbv zeta in H;
  destruct H as (? & ? & ? & ? & ? & ? & ? & ? & ? & ? & ? & ? & ?).

(** Projections of a state built by assignments *)
Ltac fields :=
  cbn [_originalContent _parsedNodes _currentIndex _isPlaying _isPaused
       _animationFrame _lastTimestamp _speed _minDuration _maxDuration
       content dispatched frameRequests frameId
       set_originalContent set_parsedNodes set_currentIndex set_isPlaying
       set_isPaused set_animationFrame set_lastTimestamp set_speed
       set_minDuration set_maxDuration set_content set_dispatched
       set_frameRequests set_frameId
       dispatchEvent schedule_animate requestAnimationFrame state_of
       andb negb orb
       and_then] in *.

Lemma render_in_range (s : State) :
  forallb accepted (_parsedNodes s) = true -> index_in_range s ->
  exists tree, render (_parsedNodes s) (_currentIndex s) = Some tree.
Proof. intros Ha [_ Hhi]. apply render_returns; [done | by right]. Qed.

Lemma zero_in_range (n : nat) : within (of_Z 0) (of_nat n) (of_Z 0).
Proof.
  split; [reflexivity |]. change (of_Z 0) with (of_nat 0).
  rewrite js_le_of_nat. apply Nat.leb_le. lia.
Qed.

Lemma total_in_range (n : nat) : within (of_Z 0) (of_nat n) (of_nat n).
Proof.
  split; [change (of_Z 0) with (of_nat 0) |]; rewrite js_le_of_nat;
    apply Nat.leb_le; lia.
Qed.

Lemma count_in_range (k n : nat) :
  (k <= n)%nat -> within (of_Z 0) (of_nat n) (of_nat k).
Proof.
  intros H. split; [change (of_Z 0) with (of_nat 0) |]; rewrite js_le_of_nat;
    apply Nat.leb_le; lia.
Qed.

Lemma progress_within (s : State) :
  index_in_range s -> within (of_Z 0) (of_Z 1) (progress s).
Proof.
  intros Hs. unfold progress.
  destruct (Nat.ltb_spec 0 (total s)); [by apply ratio_within |].
  split; reflexivity.
Qed.

Lemma sought_within (position : number) (n : nat) :
  is_array_length n -> position <> NaN ->
  within (of_Z 0) (of_nat n) (sought position n).
Proof.
  intros Hn Hp. unfold sought.
  destruct (js_ge position (of_Z 0) && js_le position (of_Z 1)) eqn:Hin.
  - apply andb_true_iff in Hin as [H0 H1].
    destruct position as [| | q |]; try done.
    unfold js_ge, js_le, of_Z in H0, H1. apply Qle_bool_iff in H0, H1.
    apply floor_within; [unfold is_array_length in Hn; lia | done | done].
  - by apply clamp_within.
Qed.

Lemma sought_renders (position : number) (nodes : list CharUnit) :
  is_array_length (length nodes) -> forallb accepted nodes = true ->
  exists tree, render nodes (sought position (length nodes)) = Some tree.
Proof.
  intros Hn Ha. apply render_returns; [done |].
  destruct position as [| | q |]; [by left | right ..];
    by apply sought_within.
Qed.

(** [seek()], whatever the content: the index is set, and then either the
    rendering succeeds, the event is dispatched and the animation goes
    on if it was going, or the rendering raises and nothing else is
    done. *)
Lemma seek_unfold (position : number) (s : State) :
  seek position s =
    let s1 := set_lastTimestamp (of_Z 0)
                (set_currentIndex (sought position (total s))
                   (_cancelAnimation s)) in
    match render (_parsedNodes s) (sought position (total s)) with
    | Some tree =>
        let s2 := set_content tree s1 in
        let s3 := dispatchEvent (NewCustomEvent "seek" (seek_detail s2)) s2 in
        Returned (if isPlaying s then schedule_animate (set_isPaused false s3)
                  else s3)
    | None => Threw s1
    end.
Proof.
  cancelled s. unfold seek, sought, total, _render in *.
  rewrite !H0.
  destruct (js_ge position (of_Z 0) && js_le position (of_Z 1)); simpl;
    rewrite H0; destruct (render _ _); unfold isPlaying; simpl;
    destruct (_isPlaying s && negb (_isPaused s)); reflexivity.
Qed.


Lemma start_when_stopped (s : State) :
  _isPlaying s = false ->
  start s =
    Returned
      (schedule_animate
         (dispatchEvent (NewEvent "start")
            (set_content []
               (set_isPaused false
                  (set_isPlaying true
                     (set_lastTimestamp (of_Z 0)
                        (set_currentIndex (of_Z 0) (_cancelAnimation s)))))))).
Proof.
  intros Hs. cancelled s. unfold start, _render. rewrite Hs. simpl.
  by rewrite render_nothing.
Qed.

(** C2, as amended: with [_isPlaying] false (the element is idle or has
    completed) [start()] cancels the request the element holds, resets the
    index to 0, makes the element play, renders the empty prefix,
    dispatches [start] and requests a frame; with [_isPlaying] true
    (playing or paused) it changes nothing and dispatches nothing. *)
Theorem C2_start (s : State) :
  (_isPlaying s = false ->
   exists s', start s = Returned s' /\
     _currentIndex s' = of_Z 0 /\
     isPlaying s' = true /\ isPaused s' = false /\
     render (_parsedNodes s') (_currentIndex s') = Some (content s') /\
     content s' = [] /\
     dispatched s' = dispatched s ++ [NewEvent "start"] /\
     frameRequests s' = not_cancelled s ++ [S (frameId s)] /\
     _animationFrame s' = Some (S (frameId s))) /\
  (_isPlaying s = true -> start s = Returned s).
Proof.
  split; intros Hs.
  - eexists. split; [by apply start_when_stopped |].
    cancelled s. simpl. rewrite render_nothing.
    repeat split; congruence.
  - unfold start. by rewrite Hs.
Qed.

Lemma C2_start_witness :
  _isPlaying loaded = false /\
  exists s', start loaded = Returned s' /\
     _currentIndex s' = of_Z 0 /\
     isPlaying s' = true /\ isPaused s' = false /\
     render (_parsedNodes s') (_currentIndex s') = Some (content s') /\
     content s' = [] /\
     dispatched s' = dispatched loaded ++ [NewEvent "start"] /\
     frameRequests s' = not_cancelled loaded ++ [S (frameId loaded)] /\
     _animationFrame s' = Some (S (frameId loaded)).
Proof.
  split; [reflexivity |].
  apply (proj1 (C2_start loaded)). reflexivity.
Defined.

(** C2 as stated fails on a paused element: [start()] returns at once,
    the index stays at 3 and no event is dispatched. *)
Lemma C2_start_paused_counterexample :
  isPlaying paused_at_3 = false /\ isPaused paused_at_3 = true /\
  _currentIndex paused_at_3 = of_Z 3 /\
  start paused_at_3 = Returned paused_at_3 /\
  ~ (exists s', start paused_at_3 = Returned s' /\
       _currentIndex s' = of_Z 0 /\
       dispatched s' = dispatched paused_at_3 ++ [NewEvent "start"]).
Proof.
  repeat split; try reflexivity.
  intros (s' & Hs' & Hidx & _).
  change (start paused_at_3) with (Returned paused_at_3) in Hs'.
  injection Hs' as <-. vm_compute in Hidx. discriminate.
Qed.

(** C3, on the code: with an empty sequence the [progress] getter and the
    delay are 0, yet the [seek] event carries [0 / 0], that is NaN. *)
Theorem C3_seek_progress_on_empty :
  let s := state_of (setText (markup "" []) constructed) in
  total s = 0%nat /\ progress s = of_Z 0 /\ _calculateCharDelay s = of_Z 0 /\
  seek (of_Z 0) s =
    Returned
      (dispatchEvent
         (NewCustomEvent "seek" [("position", of_Z 0); ("progress", NaN)]) s).
Proof. vm_compute. repeat split. Qed.

Lemma speed_default (a : number) :
  (if js_gt a (of_Z 0) then a else of_Z 1)
  = (if js_le a (of_Z 0) || is_NaN a then of_Z 1 else a).
Proof.
  rewrite js_gt_positive. by destruct (js_le a (of_Z 0) || is_NaN a).
Qed.

(** C5: once the [speed] attribute has been read, the delay the element
    computes is [delayPerChar] of its number of units, the raw speed and
    its duration bounds; 10 units at speed 1 between 2000 and 5000 ms
    give 200 ms. *)
Theorem C5_delayPerChar (parseFloat : option string -> number)
    (oldValue newValue : option string) (s : State) :
  oldValue <> newValue ->
  _calculateCharDelay
    (attributeChangedCallback parseFloat "speed" oldValue newValue s)
  = delayPerChar (total s) (parseFloat newValue) (_minDuration s)
      (_maxDuration s)
  /\ delayPerChar 10 (of_Z 1) (of_Z 2000) (of_Z 5000) = of_Z 200
  /\ _calculateCharDelay
       (set_maxDuration (of_Z 5000) (set_minDuration (of_Z 2000) loaded))
     = of_Z 200.
Proof.
  intros Hne. split; [| split; vm_compute; reflexivity].
  unfold attributeChangedCallback. destruct (decide _) as [| _]; [done |].
  change (String.eqb "speed" "speed") with true. cbv iota.
  rewrite speed_default.
  unfold _calculateCharDelay, delayPerChar, total, js_gt. simpl.
  by destruct (length (_parsedNodes s)) as [| n].
Qed.

Lemma C5_delayPerChar_witness :
  let s := set_maxDuration (of_Z 5000) (set_minDuration (of_Z 2000) loaded) in
  @None string <> Some "1" /\
  _calculateCharDelay
    (attributeChangedCallback (fun _ => of_Z 1) "speed" None (Some "1") s)
  = of_Z 200.
Proof.
  split; [discriminate |].
  apply (proj1 (C5_delayPerChar (fun _ => of_Z 1) None (Some "1")
    (set_maxDuration (of_Z 5000) (set_minDuration (of_Z 2000) loaded))
    ltac:(discriminate))).
Defined.




(** C9: [seek(1)] and [complete()] end alike, both returning or both
    raising, with the index at [len], the same [progress] and the same
    rendered tree; on content whose names the host accepts both
    return. *)
Theorem C9_seek_1_complete (s : State) :
  is_array_length (total s) ->
  let s1 := state_of (seek (of_Z 1) s) in
  let s2 := state_of (complete s) in
  returns (seek (of_Z 1) s) = returns (complete s) /\
  _currentIndex s1 = of_nat (total s) /\
  _currentIndex s2 = of_nat (total s) /\
  progress s1 = progress s2 /\ content s1 = content s2 /\
  (forallb accepted (_parsedNodes s) = true ->
   returns (seek (of_Z 1) s) = true).
Proof.
  intros Hn. cbv zeta. rewrite seek_unfold. cbv zeta.
  change (sought (of_Z 1) (total s))
    with (Math_floor (js_mul (of_Z 1) (of_nat (total s)))).
  rewrite js_mul_1_of_nat by (unfold is_array_length in Hn; lia).
  change (Math_floor (of_nat (total s))) with (of_Z (Qfloor (inject_Z (Z.of_nat (total s))))).
  rewrite Qfloor_Z. fold (of_nat (total s)).
  cancelled s. unfold complete, _render, progress, total in *. fields.
  rewrite !H0.
  assert (Hacc : forallb accepted (_parsedNodes s) = true ->
    exists tree, render (_parsedNodes s) (of_nat (length (_parsedNodes s)))
                 = Some tree).
  { intros Ha. apply render_returns; [done | right].
    rewrite js_le_of_nat. by apply Nat.leb_le. }
  destruct (render (_parsedNodes s) (of_nat (length (_parsedNodes s))))
    as [tree |] eqn:Hr.
  - destruct (isPlaying s); fields; rewrite ?H0; repeat split; congruence.
  - fields. rewrite ?H0. repeat split; try congruence.
    intros Ha. by destruct (Hacc Ha).
Qed.

Lemma C9_seek_1_complete_witness :
  is_array_length (total loaded) /\
  returns (seek (of_Z 1) loaded) = returns (complete loaded) /\
  _currentIndex (state_of (seek (of_Z 1) loaded)) = of_nat (total loaded) /\
  content (state_of (seek (of_Z 1) loaded))
  = content (state_of (complete loaded)).
Proof.
  assert (Hn : is_array_length (total loaded)) by (by vm_compute).
  split; [exact Hn |].
  destruct (C9_seek_1_complete loaded Hn) as (Hr & Hi & _ & _ & Hc & _).
  split; [exact Hr |]. split; [exact Hi | exact Hc].
Defined.

Lemma calculateCharDelay_anchored (timestamp : number) (s : State) :
  _calculateCharDelay (anchored timestamp s) = _calculateCharDelay s.
Proof. unfold anchored. by destruct (negb _). Qed.

Lemma anchored_fields (timestamp : number) (s : State) :
  let s' := anchored timestamp s in
  _parsedNodes s' = _parsedNodes s /\ _currentIndex s' = _currentIndex s /\
  _isPlaying s' = _isPlaying s /\ _isPaused s' = _isPaused s /\
  content s' = content s /\ dispatched s' = dispatched s /\
  frameRequests s' = frameRequests s /\ frameId s' = frameId s.
Proof. unfold anchored. destruct (negb _); repeat split. Qed.




(** ** Trees in the node store *)

Lemma reads_element (d : Document) (hi : nat) n a ts (ref : nat) :
  reads d hi (ElementNode n a ts) ref <->
  (ref < hi)%nat /\
  exists cs, d !! ref = Some (Element n a cs) /\ reads_all d ref hi ts cs.
Proof.
  cbn [reads].
  assert (Hall : forall cs,
    (fix all (ts : list Node) (cs : list nat) : Prop :=
       match ts, cs with
       | [], [] => True
       | t :: ts', c :: cs' => ((ref < c)%nat /\ reads d hi t c) /\ all ts' cs'
       | _, _ => False
       end) ts cs <-> reads_all d ref hi ts cs).
  { induction ts as [| t ts IH]; intros [| c cs]; cbn; try tauto.
    by rewrite IH. }
  split; intros [Hlt (cs & Hcs & H)]; (split; [done |]); exists cs;
    (split; [done |]); by apply Hall.
Qed.

Lemma reads_all_app (d : Document) (lo hi : nat) ts1 ts2 cs1 cs2 :
  reads_all d lo hi ts1 cs1 -> reads_all d lo hi ts2 cs2 ->
  reads_all d lo hi (ts1 ++ ts2) (cs1 ++ cs2).
Proof.
  revert cs1. induction ts1 as [| t ts1 IH]; intros [| c cs1]; cbn; try tauto.
  intros [Ht H1] H2. split; [done |]. by apply IH.
Qed.

(** Reading a tree whose root lies above [lo] never looks at or below
    [lo], nor at or above [hi]. *)
Lemma reads_agree (d d' : Document) (lo hi : nat) (t : Node) :
  (forall i, (lo < i < hi)%nat -> d' !! i = d !! i) ->
  forall ref, (lo < ref)%nat -> reads d hi t ref -> reads d' hi t ref.
Proof.
  intros Hagree.
  induction t as [text | n a kids IH | data | n a kids IH] using Node_ind; intros ref Hlo.
  - cbn. intros [Hhi H]. split; [done |]. rewrite Hagree by lia. done.
  - rewrite !reads_element. intros [Hhi (cs & Hcs & Hkids)].
    split; [done |]. exists cs. split; [by rewrite Hagree by lia |].
    clear Hcs. revert cs Hkids.
    induction IH as [| k kids Hk _ IHkids]; intros [| c cs]; cbn; try tauto.
    intros [[Hc Hr] Hrest]. split; [| by apply IHkids].
    split; [done |]. apply Hk; [lia | done].
  - cbn. tauto.
  - cbn. tauto.
Qed.

Lemma reads_all_agree (d d' : Document) (lo hi : nat) ts cs :
  (forall i, (lo < i < hi)%nat -> d' !! i = d !! i) ->
  reads_all d lo hi ts cs -> reads_all d' lo hi ts cs.
Proof.
  intros Hagree. revert cs.
  induction ts as [| t ts IH]; intros [| c cs]; cbn; try tauto.
  intros [[Hc Hr] Hrest]. split; [| by apply IH].
  split; [done |]. by apply (reads_agree d d' lo hi).
Qed.

Lemma reads_mono (d : Document) (hi hi' : nat) (t : Node) :
  (hi <= hi')%nat -> forall ref, reads d hi t ref -> reads d hi' t ref.
Proof.
  intros Hle.
  induction t as [text | n a kids IH | data | n a kids IH] using Node_ind; intros ref.
  - cbn. intros [Hhi H]. split; [lia | done].
  - rewrite !reads_element. intros [Hhi (cs & Hcs & Hkids)].
    split; [lia |]. exists cs. split; [done |].
    clear Hcs. revert cs Hkids.
    induction IH as [| k kids Hk _ IHkids]; intros [| c cs]; cbn; try tauto.
    intros [[Hc Hr] Hrest]. split; [| by apply IHkids].
    split; [done |]. by apply Hk.
  - cbn. tauto.
  - cbn. tauto.
Qed.

Lemma reads_all_mono (d : Document) (lo lo' hi hi' : nat) ts cs :
  (lo' <= lo)%nat -> (hi <= hi')%nat ->
  reads_all d lo hi ts cs -> reads_all d lo' hi' ts cs.
Proof.
  intros Hlo Hhi. revert cs.
  induction ts as [| t ts IH]; intros [| c cs]; cbn; try tauto.
  intros [[Hc Hr] Hrest]. split; [| by apply IH].
  split; [lia |]. by apply (reads_mono d hi hi').
Qed.

(** What [reads] describes is what [subtree] computes, given fuel for
    the references from the root up to [hi]. *)
Lemma reads_subtree (d : Document) (hi : nat) (t : Node) :
  forall ref fuel, (hi <= fuel + ref)%nat ->
    reads d hi t ref -> subtree fuel d ref = Some t.
Proof.
  induction t as [text | n a kids IH | data | n a kids IH] using Node_ind;
    intros ref fuel Hfuel.
  - cbn. intros [Hhi H]. destruct fuel as [| fuel]; [lia |]. cbn. by rewrite H.
  - rewrite reads_element. intros [Hhi (cs & Hcs & Hkids)].
    destruct fuel as [| fuel]; [lia |]. cbn. rewrite Hcs.
    assert (Hm : mapM (subtree fuel d) cs = Some kids).
    { apply mapM_Some. clear Hcs. revert cs Hkids.
      induction IH as [| k kids Hk _ IHkids]; intros [| c cs]; cbn;
        try tauto; [constructor |].
      intros [[Hc Hr] Hrest]. constructor; [| by apply IHkids].
      apply Hk; [lia | done]. }
    by rewrite Hm.
  - cbn. tauto.
  - cbn. tauto.
Qed.

Lemma reads_all_subtrees (d : Document) (lo : nat) ts cs :
  reads_all d lo (length d) ts cs -> subtrees d cs = Some ts.
Proof.
  intros H. unfold subtrees. apply mapM_Some. revert cs H.
  induction ts as [| t ts IH]; intros [| c cs]; cbn; try tauto;
    [constructor |].
  intros [[Hc Hr] Hrest]. constructor; [| by apply IH].
  apply (reads_subtree d (length d)); [lia | done].
Qed.

(** ** The render state and its frames *)

Lemma chain_agree (d d' : Document) (rps : list nat) :
  forall hi child rfs,
    (forall i, (i < hi)%nat -> d' !! i = d !! i) ->
    chain d hi child rps rfs -> chain d' hi child rps rfs.
Proof.
  induction rps as [| p rps IH]; intros hi child [| [sh kids] rfs] Hagree;
    cbn; try tauto.
  intros (Hp & Hsh & (cs & Hcs & Hkids) & Hrest).
  split; [done |]. split; [done |]. split.
  - exists cs. split; [by rewrite Hagree |].
    apply (reads_all_agree d d' p hi); [| done].
    intros i Hi. apply Hagree. lia.
  - apply IH; [| done]. intros i Hi. apply Hagree. lia.
Qed.

Lemma chain_length (d : Document) (rps : list nat) :
  forall hi child rfs, chain d hi child rps rfs -> length rfs = length rps.
Proof.
  induction rps as [| p rps IH]; intros hi child [| [sh kids] rfs]; cbn;
    try tauto.
  intros (_ & _ & _ & Hrest). f_equal. by eapply IH.
Qed.

Lemma appendChild_make (d : Document) (p c : nat) sh cs :
  d !! p = Some (make sh cs) ->
  appendChild p c d = <[p := make sh (cs ++ [c])]> d.
Proof. unfold appendChild. intros ->. by destruct sh. Qed.

Lemma lookup_snoc_old (d : Document) (x : DomNode) (i : nat) :
  (i < length d)%nat -> (d ++ [x]) !! i = d !! i.
Proof. intros Hi. by apply lookup_app_l. Qed.

Lemma lookup_snoc_new (d : Document) (x : DomNode) :
  (d ++ [x]) !! length d = Some x.
Proof. by rewrite list_lookup_middle. Qed.

(** A text node is appended to the innermost open node. *)
Lemma chain_add_text (d : Document) (data : DOMString) p rps sh kids rfs :
  let d' := appendChild p (length d) (d ++ [Text data]) in
  chain d (length d) [] (p :: rps) ((sh, kids) :: rfs) ->
  length d' = S (length d) /\
  chain d' (length d') [] (p :: rps) ((sh, kids ++ [TextNode data]) :: rfs).
Proof.
  cbn. intros (Hp & Hsh & (cs & Hcs & Hkids) & Hrest).
  rewrite app_nil_r in Hcs.
  rewrite (appendChild_make _ p _ sh cs)
    by (by rewrite lookup_snoc_old).
  rewrite length_insert, length_app. cbn.
  split; [lia |].
  assert (Hagree : forall i, (i < length d)%nat -> i <> p ->
    <[p := make sh (cs ++ [length d])]> (d ++ [Text data]) !! i = d !! i).
  { intros i Hi Hne. rewrite list_lookup_insert_ne by done.
    by apply lookup_snoc_old. }
  replace (length d + 1)%nat with (S (length d)) by lia.
  split; [lia |]. split; [done |]. split.
  - exists (cs ++ [length d]). rewrite app_nil_r. split.
    + apply list_lookup_insert_eq. rewrite length_app. cbn. lia.
    + apply reads_all_app.
      * apply (reads_all_mono _ p p (length d)); [lia | lia |].
        apply (reads_all_agree d _ p (length d)); [| done].
        intros i Hi. apply Hagree; lia.
      * cbn. repeat split; try lia.
        rewrite list_lookup_insert_ne by lia. apply lookup_snoc_new.
  - apply (chain_agree d); [| done]. intros i Hi. apply Hagree; lia.
Qed.

Lemma set_attributes (d : Document) (element : nat) (n : string)
    (a : gmap string DOMString) :
  (element < length d)%nat ->
  d !! element = Some (Element n ∅ []) ->
  map_fold (fun k v d => put_attribute element k v d) d a
  = <[element := Element n a []]> d.
Proof.
  intros Hlt Hd.
  apply (map_fold_weak_ind
           (fun r m => r = <[element := Element n m []]> d)).
  - by rewrite list_insert_id.
  - intros k v m r _ ->. unfold put_attribute.
    rewrite list_lookup_insert_eq by done.
    by rewrite list_insert_insert_eq.
Qed.

(** An element is created under the innermost open node and opened. *)
Lemma chain_open (d : Document) (tagInfo : TagInfo) p rps f rfs :
  let e := length d in
  let d1 := d ++ [Element (ascii_uppercase (name tagInfo)) ∅ []] in
  let d2 :=
    map_fold (fun k v d => put_attribute e k v d) d1 (attributes tagInfo) in
  let d3 := appendChild p e d2 in
  chain d (length d) [] (p :: rps) (f :: rfs) ->
  length d3 = S (length d) /\
  chain d3 (length d3) [] (e :: p :: rps)
    ((ElementShape (ascii_uppercase (name tagInfo)) (attributes tagInfo), [])
       :: f :: rfs).
Proof.
  destruct f as [sh kids]. cbn.
  intros (Hp & Hsh & (cs & Hcs & Hkids) & Hrest).
  rewrite app_nil_r in Hcs.
  rewrite (set_attributes _ _ (ascii_uppercase (name tagInfo)));
    [| rewrite length_app; cbn; lia | apply lookup_snoc_new].
  set (el := Element _ _ _).
  rewrite (appendChild_make _ p _ sh cs);
    [| rewrite list_lookup_insert_ne by lia; by rewrite lookup_snoc_old].
  rewrite !length_insert, length_app. cbn.
  replace (length d + 1)%nat with (S (length d)) by lia.
  split; [done |].
  set (d3 := <[p := _]> _).
  assert (Hagree : forall i, (i < length d)%nat -> i <> p -> d3 !! i = d !! i).
  { intros i Hi Hne. unfold d3.
    rewrite !list_lookup_insert_ne by lia. by apply lookup_snoc_old. }
  split; [lia |]. split; [done |]. split.
  - exists []. split; [| done]. unfold d3.
    rewrite list_lookup_insert_ne by lia.
    apply list_lookup_insert_eq. rewrite length_app. cbn. lia.
  - split; [done |]. split; [done |]. split.
    + exists cs. split.
      * unfold d3. apply list_lookup_insert_eq.
        rewrite length_insert, length_app. cbn. lia.
      * apply (reads_all_agree d _ p (length d)); [| done].
        intros i Hi. apply Hagree; lia.
    + apply (chain_agree d); [| done]. intros i Hi. apply Hagree; lia.
Qed.

(** The innermost open element is closed into its parent. *)
Lemma chain_pop (d : Document) (hi : nat) p q rps n a kids sh kids' rfs :
  chain d hi [] (p :: q :: rps)
    ((ElementShape n a, kids) :: (sh, kids') :: rfs) ->
  chain d hi [] (q :: rps) ((sh, kids' ++ [ElementNode n a kids]) :: rfs).
Proof.
  cbn. intros (Hp & _ & (cs & Hcs & Hkids) & Hq & Hsh & (cs' & Hcs' & Hkids') & Hrest).
  rewrite app_nil_r in Hcs.
  split; [lia |]. split; [done |]. split; [| done].
  exists (cs' ++ [p]). rewrite app_nil_r. split; [done |].
  apply reads_all_app.
  - apply (reads_all_mono d q q p hi); [lia | lia | done].
  - cbn. split; [| done]. split; [done |].
    apply reads_element. split; [done |]. by exists cs.
Qed.

Lemma zclose_cons (sh : Shape) (kids : list Node) (r : list Frame) :
  zclose ((sh, kids) :: r) = wrap sh (kids ++ zclose r).
Proof. by destruct sh. Qed.

Lemma zclose_r_app (l1 l2 : list Frame) :
  forall inner, zclose_r inner (l1 ++ l2) = zclose_r (zclose_r inner l1) l2.
Proof. induction l1 as [| [sh kids] l1 IH]; intros inner; cbn; [done | apply IH]. Qed.

Lemma zclose_r_reverse (fs g : list Frame) :
  zclose_r (zclose g) (reverse fs) = zclose (fs ++ g).
Proof.
  induction fs as [| [sh kids] fs IH]; [done |].
  rewrite reverse_cons, zclose_r_app, IH. cbn [zclose_r app].
  by rewrite zclose_cons.
Qed.

Lemma zclose_reverse (rfs : list Frame) :
  zclose (reverse rfs) = zclose_r [] rfs.
Proof.
  rewrite <- (reverse_involutive rfs) at 2.
  change [] with (zclose []) at 1.
  by rewrite zclose_r_reverse, app_nil_r.
Qed.

Lemma on_last_snoc (g : Frame -> Frame) (l : list Frame) (f : Frame) :
  on_last g (l ++ [f]) = l ++ [g f].
Proof.
  induction l as [| x l IH]; [done |]. cbn [app on_last].
  rewrite IH. by destruct l.
Qed.

Lemma z_pop_snoc (l : list Frame) (g f : Frame) :
  z_pop (l ++ [g; f]) = l ++ [add_kids (zclose [f]) g].
Proof.
  induction l as [| x l IH]; [done |]. cbn [app z_pop].
  rewrite IH. destruct l as [| y [| z l]]; done.
Qed.

(** The state behind [simulates], innermost node first *)
Lemma simulates_inv (st : RenderState) (fs : list Frame) :
  simulates st fs ->
  exists rps f rfs,
    parentStack st = reverse (currentParent st :: rps) /\
    fs = reverse (f :: rfs) /\
    chain (document st) (length (document st)) []
      (currentParent st :: rps) (f :: rfs).
Proof.
  intros (Hps & Hlast & Hchain).
  apply last_Some in Hlast as [ps0 Hps0].
  rewrite Hps0, reverse_snoc in Hchain.
  destruct (reverse fs) as [| f rfs] eqn:Hfs; [done |].
  exists (reverse ps0), f, rfs. split; [| split; [| done]].
  - by rewrite reverse_cons, reverse_involutive.
  - by rewrite <- Hfs, reverse_involutive.
Qed.

Lemma simulates_start : simulates render_start z_start.
Proof.
  split; [done |]. split; [done |]. cbn.
  split; [lia |]. split; [split; [done | by intros []] |].
  split; [by exists [] | done].
Qed.

Lemma sim_add_text (st : RenderState) (fs : list Frame) (node : CharUnit) :
  simulates st fs ->
  simulates (add_text st node)
    (on_last (add_kids [TextNode ([char node])]) fs).
Proof.
  intros Hsim. pose proof Hsim as (Hps & Hlast & _).
  apply simulates_inv in Hsim as (rps & [sh kids] & rfs & Hrps & -> & Hchain).
  apply (chain_add_text _ ([char node])) in Hchain as [Hlen Hchain].
  unfold add_text. cbn [createTextNode].
  split; [done |]. split; [done |]. cbn [document parentStack].
  rewrite Hrps, reverse_involutive, reverse_cons, on_last_snoc, reverse_snoc.
  rewrite reverse_involutive. exact Hchain.
Qed.

Lemma sim_open_tag (st : RenderState) (fs : list Frame) (tagInfo : TagInfo) :
  simulates st fs -> simulates (open_tag_valid st tagInfo) (z_open_tag fs tagInfo).
Proof.
  intros Hsim. pose proof Hsim as (Hps & Hlast & _).
  apply simulates_inv in Hsim as (rps & f & rfs & Hrps & -> & Hchain).
  apply (chain_open _ tagInfo) in Hchain as [Hlen Hchain].
  unfold open_tag_valid, opened, z_open_tag. cbn [new_element].
  split; [cbn; by rewrite Hps |]. split; [cbn; apply last_snoc |].
  cbn [document parentStack].
  rewrite Hrps, !reverse_snoc, !reverse_involutive. exact Hchain.
Qed.

Lemma sim_close_tag (st : RenderState) (fs : list Frame) :
  simulates st fs -> tagStack st <> [] ->
  simulates (close_tag st) (z_pop fs).
Proof.
  intros Hsim Hne. pose proof Hsim as (Hps & Hlast & _).
  apply simulates_inv in Hsim as (rps & [sh kids] & rfs & Hrps & -> & Hchain).
  destruct rps as [| q rps].
  { rewrite Hps in Hrps. rewrite reverse_singleton in Hrps.
    destruct (tagStack st); done. }
  pose proof Hchain as (_ & Hsh & _ & Hrest).
  destruct sh as [| n a]; [exfalso; by apply Hsh |].
  destruct rfs as [| [sh' kids'] rfs]; [done |].
  apply chain_pop in Hchain.
  assert (Hrem : removelast (parentStack st) = reverse (q :: rps)).
  { rewrite Hrps, (reverse_cons (q :: rps)). apply removelast_last. }
  unfold close_tag. split; [| split]; cbn [tagStack parentStack currentParent document].
  - rewrite Hps. cbn. by destruct (tagStack st).
  - rewrite Hrem, reverse_cons, last_snoc. done.
  - rewrite Hrem, reverse_involutive.
    rewrite !reverse_cons, <- app_assoc. cbn [app].
    rewrite z_pop_snoc, reverse_snoc, reverse_involutive.
    cbn. by rewrite app_nil_r.
Qed.

Lemma chain_elements (d : Document) (rps : list nat) :
  forall hi child rfs,
    chain d hi child rps rfs ->
    Forall2 (opened_as d) (removelast rps) (removelast rfs).
Proof.
  induction rps as [| p rps IH]; intros hi child [| [sh kids] rfs]; cbn;
    try tauto; [constructor |].
  intros (_ & Hsh & (cs & Hcs & _) & Hrest).
  destruct rps as [| q rps].
  - destruct rfs; [constructor | done].
  - destruct rfs as [| g rfs]; [done |].
    constructor; [| by eapply IH].
    destruct sh as [| n a]; [exfalso; by apply Hsh |].
    by exists n, a, (cs ++ child).
Qed.

Lemma tail_reverse {A : Type} (l : list A) :
  tail (reverse l) = reverse (removelast l).
Proof.
  destruct (decide (l = [])) as [-> | Hne]; [done |].
  apply last_is_Some in Hne as [x Hx].
  apply last_Some in Hx as [l' ->].
  by rewrite removelast_last, reverse_snoc.
Qed.

Lemma sim_tags (st : RenderState) (fs : list Frame) :
  simulates st fs -> Forall2 (opened_as (document st)) (tagStack st) (tail fs).
Proof.
  intros (Hps & _ & Hchain).
  apply chain_elements, Forall2_reverse in Hchain.
  rewrite <- !tail_reverse, !reverse_involutive, Hps in Hchain. exact Hchain.
Qed.

Lemma tagsMatch_from_sim (d : Document) (ts : list nat) (fs : list Frame) :
  Forall2 (opened_as d) ts fs ->
  forall tags2, tagsMatch_from d ts tags2 = z_tagsMatch_from fs tags2.
Proof.
  induction 1 as [| p f ts fs (n & a & cs & Hf & Hp) _ IH]; intros tags2;
    [done |].
  destruct tags2 as [| tagInfo tags2]; [done |]. cbn.
  unfold nodeName_of, shape_name. rewrite Hp, Hf, IH. done.
Qed.

Lemma must_close_sim (st : RenderState) (fs : list Frame) (node : CharUnit) :
  simulates st fs -> must_close st node = z_must_close fs node.
Proof.
  intros Hsim. pose proof (sim_tags _ _ Hsim) as Htags.
  unfold must_close, z_must_close, _tagsMatch.
  rewrite (Forall2_length _ _ _ Htags).
  by rewrite (tagsMatch_from_sim _ _ _ Htags).
Qed.

Lemma must_close_nonempty (st : RenderState) (node : CharUnit) :
  must_close st node = true -> tagStack st <> [].
Proof.
  unfold must_close. destruct (tagStack st); [| done].
  intros H. apply orb_true_iff in H as [H | H].
  - apply Nat.ltb_lt in H. cbn in H. lia.
  - done.
Qed.

Lemma sim_close_tags (turns : nat) (node : CharUnit) :
  forall st fs, simulates st fs ->
    simulates (close_tags turns st node) (z_close_tags turns fs node).
Proof.
  induction turns as [| turns IH]; intros st fs Hsim; cbn;
    rewrite <- (must_close_sim st fs node Hsim);
    destruct (must_close st node) eqn:Hmc; try done.
  apply IH, sim_close_tag; [done |]. by eapply must_close_nonempty.
Qed.

Lemma sim_foldl_open (tags : list TagInfo) :
  forall st fs, simulates st fs ->
    simulates (foldl open_tag_valid st tags) (foldl z_open_tag fs tags).
Proof.
  induction tags as [| t tags IH]; intros st fs Hsim; [done |].
  cbn. by apply IH, sim_open_tag.
Qed.

Lemma sim_render_char (st : RenderState) (fs : list Frame) (node : CharUnit) :
  simulates st fs -> simulates (render_char_valid st node) (z_render_char fs node).
Proof.
  intros Hsim. unfold render_char_valid, z_render_char.
  rewrite (Forall2_length _ _ _ (sim_tags _ _ Hsim)).
  pose proof (sim_close_tags (length (tail fs)) node _ _ Hsim) as H1.
  apply sim_add_text. unfold open_tags_valid.
  rewrite (Forall2_length _ _ _ (sim_tags _ _ H1)).
  by apply sim_foldl_open.
Qed.

Lemma sim_foldl_render (nodes : list CharUnit) :
  forall st fs, simulates st fs ->
    simulates (foldl render_char_valid st nodes) (foldl z_render_char fs nodes).
Proof.
  induction nodes as [| node nodes IH]; intros st fs Hsim; [done |].
  cbn. by apply IH, sim_render_char.
Qed.

(** Closing the frames gives the children of the outermost node. *)
Lemma chain_closes (d : Document) (rps : list nat) :
  forall hi child rfs ct p0,
    chain d hi child rps rfs -> (hi <= length d)%nat ->
    head rps = Some p0 -> reads_all d p0 (length d) ct child ->
    exists root cs, last rps = Some root /\
      d !! root = Some (DocumentFragment cs) /\
      reads_all d root (length d) (zclose_r ct rfs) cs.
Proof.
  induction rps as [| p rps IH]; intros hi child [| [sh kids] rfs] ct p0;
    cbn; try tauto; try done.
  intros (Hp & Hsh & (cs & Hcs & Hkids) & Hrest) Hhi [= <-] Hct.
  assert (Hall : reads_all d p (length d) (kids ++ ct) (cs ++ child)).
  { apply reads_all_app; [| done].
    by apply (reads_all_mono d p p hi). }
  destruct rps as [| q rps].
  - destruct rfs; [| done].
    destruct sh as [| n a]; [| exfalso; by apply Hsh].
    exists p, (cs ++ child). done.
  - destruct sh as [| n a]; [exfalso; by apply Hsh |].
    destruct rfs as [| g rfs]; [done |].
    pose proof Hrest as Hq. destruct g as [sh' kids'].
    destruct Hq as (Hq & _).
    destruct (IH p [p] ((sh', kids') :: rfs) [ElementNode n a (kids ++ ct)] q)
      as (root & cs0 & Hroot & Hd & Hr); try done; [lia | |].
    + cbn. split; [| done]. split; [done |].
      apply reads_element. split; [lia |]. by exists (cs ++ child).
    + exists root, cs0. done.
Qed.

Lemma sim_content (st : RenderState) (fs : list Frame) :
  simulates st fs -> built st = zclose fs.
Proof.
  intros Hsim. pose proof Hsim as (Hps & _ & _).
  apply simulates_inv in Hsim as (rps & f & rfs & Hrps & -> & Hchain).
  destruct (chain_closes _ _ _ _ _ [] (currentParent st) Hchain)
    as (root & cs & Hroot & Hd & Hr); [done | done | done |].
  assert (root = 0%nat) as ->.
  { rewrite Hps in Hrps.
    assert (Hh : head (reverse (currentParent st :: rps)) = Some 0%nat)
      by (by rewrite <- Hrps).
    rewrite head_reverse in Hh. congruence. }
  unfold built, childNodes_of. rewrite Hd.
  rewrite (reads_all_subtrees _ _ _ _ Hr). cbn [default].
  by rewrite zclose_reverse.
Qed.

(** The renderer, on frames: the rendering of the first [k] units, when
    they are plain, is the forest the frames close into, with its
    custom elements marked. *)
Lemma render_frames (nodes : list CharUnit) (k : nat) :
  (k <= length nodes)%nat -> forallb plain (take k nodes) = true ->
  render nodes (of_nat k)
  = Some (map upgraded (zclose (foldl z_render_char z_start (take k nodes)))).
Proof.
  intros Hk Hp. rewrite render_take by done. f_equal.
  unfold content_of. f_equal.
  apply sim_content, sim_foldl_render, simulates_start.
Qed.

(** ** The renderer on frames, in closed form *)

Lemma add_kids_nil (f : Frame) : add_kids [] f = f.
Proof. destruct f. unfold add_kids. cbn. by rewrite app_nil_r. Qed.

Lemma on_last_id (g : Frame -> Frame) (fs : list Frame) :
  (forall f, g f = f) -> on_last g fs = fs.
Proof.
  intros Hg. induction fs as [| f fs IH]; [done |]. cbn.
  rewrite IH, Hg. by destruct fs.
Qed.

Lemma shut_all (fs : list Frame) : shut (length fs) fs = fs.
Proof.
  unfold shut. rewrite drop_all, firstn_all. cbn.
  apply on_last_id, add_kids_nil.
Qed.

Lemma zclose_app_pop (l : list Frame) (g f : Frame) :
  zclose (l ++ [add_kids (zclose [f]) g]) = zclose (l ++ [g; f]).
Proof.
  induction l as [| [sh kids] l IH].
  - destruct g as [sh kids], f as [sh' kids']. cbn.
    rewrite !app_nil_r. by destruct sh, sh'.
  - cbn [app]. by rewrite !zclose_cons, IH.
Qed.

Lemma z_pop_on_last (l : list Frame) (f : Frame) :
  l <> [] -> z_pop (l ++ [f]) = on_last (add_kids (zclose [f])) l.
Proof.
  intros Hne. apply last_is_Some in Hne as [g Hg].
  apply last_Some in Hg as [l' ->].
  rewrite <- app_assoc. cbn [app]. by rewrite z_pop_snoc, on_last_snoc.
Qed.

Lemma shut_pop (j : nat) (l : list Frame) (f : Frame) :
  (1 <= j <= length l)%nat ->
  shut j (z_pop (l ++ [f])) = shut j (l ++ [f]).
Proof.
  intros Hj.
  assert (l <> []) as Hne by (destruct l; cbn in Hj; [lia | done]).
  apply last_is_Some in Hne as [g Hg].
  apply last_Some in Hg as [l' ->].
  rewrite <- app_assoc. cbn [app]. rewrite z_pop_snoc.
  rewrite length_app in Hj. cbn in Hj. unfold shut.
  destruct (decide (j <= length l')%nat) as [Hle | Hgt].
  - rewrite !take_app_le, !drop_app_le by done.
    by rewrite zclose_app_pop.
  - assert (j = length l' + 1)%nat as -> by lia.
    replace (length l' + 1)%nat with (length (l' ++ [add_kids (zclose [f]) g]))
      at 1 2 by (rewrite length_app; cbn; lia).
    rewrite firstn_all, drop_all. cbn [zclose].
    rewrite (on_last_id _ _ add_kids_nil).
    replace (l' ++ [g; f]) with ((l' ++ [g]) ++ [f])
      by (by rewrite <- app_assoc).
    replace (length l' + 1)%nat with (length (l' ++ [g]))
      by (rewrite length_app; cbn; lia).
    rewrite take_app_length, drop_app_length.
    by rewrite on_last_snoc.
Qed.

Lemma frame_names_on_last (new : list Node) (fs : list Frame) :
  frame_names (on_last (add_kids new) fs) = frame_names fs.
Proof.
  unfold frame_names. induction fs as [| f fs IH]; [done |].
  cbn [on_last]. destruct fs as [| f' fs]; [done |].
  cbn [map] in *. by rewrite IH.
Qed.

Lemma on_last_cons (g : Frame -> Frame) (f : Frame) (fs : list Frame) :
  fs <> [] -> on_last g (f :: fs) = f :: on_last g fs.
Proof. by destruct fs. Qed.

Lemma length_on_last (g : Frame -> Frame) (fs : list Frame) :
  length (on_last g fs) = length fs.
Proof.
  induction fs as [| f fs IH]; [done |]. cbn [on_last].
  destruct fs; [done |]. cbn [length] in *. by rewrite IH.
Qed.

(** [_tagsMatch] compares names, position by position. *)
Lemma z_tagsMatch_names (fs : list Frame) :
  forall tags2, length fs = length tags2 ->
    z_tagsMatch_from fs tags2 = bool_decide (frame_names fs = tag_names tags2).
Proof.
  induction fs as [| f fs IH]; intros [| t tags2] Hlen; try done.
  cbn [z_tagsMatch_from]. rewrite IH by (cbn in Hlen; lia).
  unfold frame_names, tag_names. cbn [map].
  destruct (String.eqb_spec (toLowerCase (shape_name f)) (name t)) as [-> | Hne].
  - apply bool_decide_ext. split; [by intros -> | by intros [= ->]].
  - symmetry. apply bool_decide_eq_false. by intros [= ? ?].
Qed.

Lemma z_must_close_spec (root : Frame) (fs : list Frame) (node : CharUnit) :
  z_must_close (root :: fs) node =
    (length (tags node) <? length fs)%nat
    || ((0 <? length fs)%nat
        && negb ((length fs =? length (tags node))%nat
                 && bool_decide (frame_names fs = tag_names (tags node)))).
Proof.
  unfold z_must_close. cbn [tail]. f_equal. f_equal. f_equal.
  destruct (Nat.eqb_spec (length fs) (length (tags node))) as [He | Hne];
    cbn; [by apply z_tagsMatch_names | done].
Qed.

Lemma continues_all (names path : list string) :
  length names = length path ->
  continues names path = bool_decide (names = path).
Proof.
  intros Hlen. unfold continues. by rewrite <- Hlen, firstn_all.
Qed.

Lemma continues_short (names path : list string) :
  (length names < length path)%nat -> continues names path = false.
Proof.
  intros Hlen. unfold continues. apply bool_decide_eq_false.
  intros H. apply (f_equal length) in H. rewrite length_take in H. lia.
Qed.

Lemma continues_removelast (names path : list string) (x : string) :
  (length path <= length names)%nat ->
  continues (names ++ [x]) path = continues names path.
Proof.
  intros Hlen. unfold continues. by rewrite take_app_le.
Qed.

(** The [while] of the renderer keeps the open elements a unit
    continues and closes the others. *)
Lemma z_close_tags_shut (node : CharUnit) (n : nat) :
  forall fs root, length fs = n ->
    z_close_tags n (root :: fs) node = shut (S (kept fs node)) (root :: fs).
Proof.
  induction n as [| n IH]; intros fs root Hlen.
  - destruct fs; [| done]. cbn [z_close_tags].
    rewrite z_must_close_spec. cbn [length Nat.ltb Nat.leb orb andb].
    unfold shut. cbn [take drop]. rewrite take_nil, drop_nil.
    cbn [zclose on_last]. by rewrite add_kids_nil.
  - assert (fs <> []) as Hne by (by destruct fs).
    apply last_is_Some in Hne as [f Hf].
    apply last_Some in Hf as [l ->].
    rewrite length_app in Hlen. cbn in Hlen.
    cbn [z_close_tags]. rewrite z_must_close_spec.
    rewrite length_app. cbn [length].
    replace (length l + 1)%nat with (S n) by lia.
    unfold kept, frame_names. rewrite map_app. cbn [map].
    fold (frame_names l). set (x := toLowerCase (shape_name f)).
    assert (Hpath : length (tag_names (tags node)) = length (tags node))
      by apply length_map.
    assert (Hnames : length (frame_names l) = n)
      by (unfold frame_names; rewrite length_map; lia).
    destruct (Nat.ltb_spec (length (tags node)) (S n)) as [Hlt | Hge];
      cbn [orb andb].
    + (* deeper than the unit: one level is closed *)
      change (root :: l ++ [f]) with ((root :: l) ++ [f]).
      rewrite z_pop_on_last by done.
      destruct (on_last _ (root :: l)) as [| root' l'] eqn:Hl'.
      { apply (f_equal length) in Hl'. by rewrite length_on_last in Hl'. }
      assert (Hlen' : length l' = n).
      { apply (f_equal length) in Hl'. rewrite length_on_last in Hl'.
        cbn in Hl'. lia. }
      assert (Hnm : frame_names l' = frame_names l).
      { pose proof (frame_names_on_last (zclose [f]) (root :: l)) as H.
        rewrite Hl' in H. unfold frame_names in *. cbn in H. congruence. }
      rewrite (IH l' root' Hlen'). unfold kept. rewrite Hnm.
      rewrite continues_removelast by lia.
      rewrite <- Hl', <- z_pop_on_last by done.
      apply shut_pop. cbn [length].
      destruct (continues _ _); lia.
    + destruct (Nat.eqb_spec (S n) (length (tags node))) as [Heq | Hneq];
        cbn [andb negb].
      * rewrite continues_all
          by (rewrite length_app; cbn; lia).
        destruct (bool_decide (frame_names l ++ [x] = tag_names (tags node)));
          cbn [negb].
        -- rewrite <- Heq.
           replace (S (S n)) with (length (root :: l ++ [f]))
             by (cbn; rewrite length_app; cbn; lia).
           by rewrite shut_all.
        -- change (root :: l ++ [f]) with ((root :: l) ++ [f]).
           rewrite z_pop_on_last by done.
           destruct (on_last _ (root :: l)) as [| root' l'] eqn:Hl'.
           { apply (f_equal length) in Hl'.
             by rewrite length_on_last in Hl'. }
           assert (Hlen' : length l' = n).
           { apply (f_equal length) in Hl'. rewrite length_on_last in Hl'.
             cbn in Hl'. lia. }
           assert (Hnm : frame_names l' = frame_names l).
           { pose proof (frame_names_on_last (zclose [f]) (root :: l)) as H.
             rewrite Hl' in H. unfold frame_names in *. cbn in H.
             congruence. }
           rewrite (IH l' root' Hlen'). unfold kept. rewrite Hnm.
           rewrite continues_short by lia.
           rewrite <- Hl', <- z_pop_on_last by done.
           apply shut_pop. cbn [length]. lia.
      * rewrite (continues_short (frame_names l ++ [x]))
          by (rewrite length_app; cbn; lia).
        change (root :: l ++ [f]) with ((root :: l) ++ [f]).
        rewrite z_pop_on_last by done.
        destruct (on_last _ (root :: l)) as [| root' l'] eqn:Hl'.
        { apply (f_equal length) in Hl'.
          by rewrite length_on_last in Hl'. }
        assert (Hlen' : length l' = n).
        { apply (f_equal length) in Hl'. rewrite length_on_last in Hl'.
          cbn in Hl'. lia. }
        assert (Hnm : frame_names l' = frame_names l).
        { pose proof (frame_names_on_last (zclose [f]) (root :: l)) as H.
          rewrite Hl' in H. unfold frame_names in *. cbn in H.
          congruence. }
        rewrite (IH l' root' Hlen'). unfold kept. rewrite Hnm.
        rewrite continues_short by lia.
        rewrite <- Hl', <- z_pop_on_last by done.
        apply shut_pop. cbn [length]. lia.
Qed.

(** ** Case of names *)

Lemma lower_upper_char (c : ascii) :
  lower_char (ascii_upper_char c) = lower_char c.
Proof. by destruct c as [[] [] [] [] [] [] [] []]. Qed.

Lemma lower_lower_char (c : ascii) :
  lower_char (lower_char c) = lower_char c.
Proof. by destruct c as [[] [] [] [] [] [] [] []]. Qed.

Lemma toLowerCase_ascii_uppercase (s : string) :
  toLowerCase (ascii_uppercase s) = toLowerCase s.
Proof.
  unfold toLowerCase, ascii_uppercase.
  induction s as [| c s IH]; [done |]. cbn.
  by rewrite lower_upper_char, IH.
Qed.

Lemma toLowerCase_idemp (s : string) :
  toLowerCase (toLowerCase s) = toLowerCase s.
Proof.
  unfold toLowerCase.
  induction s as [| c s IH]; [done |]. cbn.
  by rewrite lower_lower_char, IH.
Qed.

Lemma canonical_name (n : string) :
  ascii_uppercase (toLowerCase (ascii_uppercase (toLowerCase n)))
  = ascii_uppercase (toLowerCase n).
Proof. by rewrite toLowerCase_ascii_uppercase, toLowerCase_idemp. Qed.


(** ** One unit, on frames *)

Lemma foldl_z_open_tag (tags : list TagInfo) :
  forall fs, foldl z_open_tag fs tags = fs ++ map new_frame tags.
Proof.
  induction tags as [| t tags IH]; intros fs; cbn; [by rewrite app_nil_r |].
  rewrite IH. unfold z_open_tag. by rewrite <- app_assoc.
Qed.

Lemma kept_le (fs : list Frame) (node : CharUnit) :
  (kept fs node <= length fs)%nat.
Proof.
  unfold kept, continues. case_bool_decide as H; [| lia].
  apply (f_equal length) in H. rewrite length_take in H.
  unfold frame_names, tag_names in H. rewrite !length_map in H. lia.
Qed.

Lemma length_shut (n : nat) (fs : list Frame) :
  (n <= length fs)%nat -> length (shut n fs) = n.
Proof.
  intros Hn. unfold shut. rewrite length_on_last, length_take. lia.
Qed.


Lemma on_last_nonempty (g : Frame -> Frame) (fs : list Frame) :
  fs <> [] -> on_last g fs <> [].
Proof.
  intros Hne H. apply (f_equal length) in H.
  rewrite length_on_last in H. by destruct fs.
Qed.








(** ** Spines *)










Lemma lowercase_snoc (path : list TagInfo) (n : string)
    (a : gmap string DOMString) :
  lowercase path ->
  lowercase (path ++ [{| name := toLowerCase n; attributes := a |}]).
Proof.
  intros Hp. apply Forall_app. split; [done |].
  constructor; [| done]. apply toLowerCase_idemp.
Qed.


(** ** Forests the renderer rebuilds *)




(** ** Plain trees *)








Lemma canon_idemp (node : Node) : canon (canon node) = canon node.
Proof.
  induction node as [text | n a kids IH | data | n a kids IH] using Node_ind;
    try done.
  cbn [canon]. rewrite canonical_name.
  rewrite (delete_id (delete "__proto__" a)) by apply lookup_delete_eq.
  f_equal. induction IH as [| k kids Hk _ IHkids]; [done |].
  cbn [map]. by rewrite Hk, IHkids.
Qed.







(** ** Units that continue the open elements *)















(** ** The frame that opened an element *)








(** C7, on the code: the tag info of [<b __proto__="x">Hi</b>] records no
    attribute, the element having one. *)
Theorem C7_proto_attribute_dropped :
  proto_attribute
  = [ElementNode "B" {[ "__proto__" := utf16 "x" ]} [TextNode (utf16 "Hi")]] /\
  _parseContent proto_attribute
  = [{| char := 72%N; tags := [{| name := "b"; attributes := ∅ |}] |};
     {| char := 105%N; tags := [{| name := "b"; attributes := ∅ |}] |}] /\
  ({[ "__proto__" := utf16 "x" ]} : gmap string DOMString) <> ∅.
Proof.
  split; [reflexivity |]. split; [by vm_compute |].
  intros H. apply (f_equal (fun m => m !! "__proto__")) in H.
  vm_compute in H. discriminate.
Qed.

(** C8, on the code: a playing element of ten characters is sought to
    9.5, which lies in [0, len]; of the two frames that follow, the
    second takes the index to 10.5, past the ten characters, and
    [progress] to the quotient of 10.5 by 10, which is more than 1.  [seek(NaN)]
    leaves NaN as the index and as [progress]. *)
Theorem C8_progress_leaves_range :
  let s := state_of (seek (Num (19 # 2)) playing) in
  let s' := run_frame (of_Z 2000) (run_frame (of_Z 1000) s) in
  index_in_range s /\ total s' = 10%nat /\
  _currentIndex s' = Num (21 # 2) /\
  js_lt (of_nat (total s')) (_currentIndex s') = true /\
  progress s' = js_div (Num (21 # 2)) (of_Z 10) /\
  js_lt (of_Z 1) (progress s') = true /\
  _currentIndex (state_of (seek NaN loaded)) = NaN /\
  progress (state_of (seek NaN loaded)) = NaN.
Proof. by vm_compute. Qed.

(** ** More on the parser *)

Lemma units_of_lowercase (node : Node) :
  forall path, lowercase path ->
    Forall (fun u => lowercase (tags u)) (units_of node path).
Proof.
  induction node as [text | n a kids IH | data | n a kids IH] using Node_ind;
    intros path Hpath; cbn [units_of].
  - apply Forall_forall. intros u Hu.
    apply list_elem_of_In, in_map_iff in Hu as (c & <- & _). done.
  - pose proof (lowercase_snoc path n (delete "__proto__" a) Hpath) as Hpath'.
    induction IH as [| k kids Hk _ IHkids]; [constructor |].
    cbn [flat_map]. apply Forall_app. split; [by apply Hk | apply IHkids].
  - constructor.
  - pose proof (lowercase_snoc path n (delete "__proto__" a) Hpath) as Hpath'.
    induction IH as [| k kids Hk _ IHkids]; [constructor |].
    cbn [flat_map]. apply Forall_app. split; [by apply Hk | apply IHkids].
Qed.

(** The parser gives every tag of every unit a name in lower case. *)
Theorem parsed_names_lowercase (markup : list Node) :
  Forall (fun u => lowercase (tags u)) (_parseContent markup).
Proof.
  rewrite parseContent_document_order. unfold document_order.
  induction markup as [| node markup IH]; [constructor |].
  cbn [flat_map]. apply Forall_app. split; [| done].
  apply units_of_lowercase. constructor.
Qed.

Lemma units_of_text (node : Node) :
  forall path, map char (units_of node path) = textContent node.
Proof.
  induction node as [text | n a kids IH | data | n a kids IH] using Node_ind;
    intros path; cbn [units_of textContent].
  - rewrite map_map. cbn. apply map_id.
  - induction IH as [| k kids Hk _ IHkids]; [done |].
    cbn [flat_map]. by rewrite map_app, Hk, IHkids.
  - done.
  - induction IH as [| k kids Hk _ IHkids]; [done |].
    cbn [flat_map]. by rewrite map_app, Hk, IHkids.
Qed.

(** The characters of the parsed sequence are those of the text nodes of
    the markup, in document order, whatever surrounds them. *)
Theorem parsed_characters (markup : list Node) :
  map char (_parseContent markup) = flat_map textContent markup.
Proof.
  rewrite parseContent_document_order. unfold document_order.
  induction markup as [| node markup IH]; [done |].
  cbn [flat_map]. by rewrite map_app, units_of_text, IH.
Qed.

(** Markup is parsed piece by piece: the sequence of two node lists put
    end to end is the two sequences put end to end, and units parsed
    earlier are kept. *)
Theorem parsed_app (before after : list Node) (openTags : list TagInfo)
    (parsed : list CharUnit) :
  _traverseNodes (before ++ after) openTags parsed
  = _traverseNodes after openTags (_traverseNodes before openTags parsed)
  /\ _parseContent (before ++ after)
     = _parseContent before ++ _parseContent after.
Proof.
  unfold _parseContent. rewrite !traverseNodes_appends.
  unfold document_order. rewrite flat_map_app. cbn [app].
  split; [by rewrite app_assoc | apply flat_map_app].
Qed.

(** A unit pushed while the nodes under open tags [openTags] are
    traversed has [openTags] as a prefix of its tags: the traversal only
    ever adds tags at the end. *)
Theorem parsed_paths_extend (nodes : list Node) (openTags : list TagInfo) :
  Forall (fun u => exists deeper, tags u = openTags ++ deeper)
    (_traverseNodes nodes openTags []).
Proof.
  rewrite traverseNodes_appends. cbn [app]. unfold document_order.
  revert openTags. intros path.
  assert (Hnode : forall node path,
    Forall (fun u => exists deeper, tags u = path ++ deeper)
      (units_of node path)).
  { clear. intros node.
    induction node as [text | n a kids IH | data | n a kids IH] using Node_ind;
      intros path; cbn [units_of].
    - apply Forall_forall. intros u Hu.
      apply list_elem_of_In, in_map_iff in Hu as (c & <- & _).
      exists []. by rewrite app_nil_r.
    - induction IH as [| k kids Hk _ IHkids]; [constructor |].
      cbn [flat_map]. apply Forall_app. split; [| apply IHkids].
      eapply Forall_impl; [apply Hk |]. cbn.
      intros u (deeper & ->). eexists. by rewrite <- app_assoc.
    - constructor.
    - induction IH as [| k kids Hk _ IHkids]; [constructor |].
      cbn [flat_map]. apply Forall_app. split; [| apply IHkids].
      eapply Forall_impl; [apply Hk |]. cbn.
      intros u (deeper & ->). eexists. by rewrite <- app_assoc. }
  induction nodes as [| node nodes IH]; [constructor |].
  cbn [flat_map]. apply Forall_app. split; [apply Hnode | done].
Qed.

(** ** More on the renderer *)

Lemma zclose_z_pop (fs : list Frame) : zclose (z_pop fs) = zclose fs.
Proof.
  destruct fs as [| g [| f fs]]; [done | done |].
  assert (Hne : f :: fs <> []) by done.
  apply last_is_Some in Hne as [x Hx]. apply last_Some in Hx as [l Hl].
  destruct l as [| y l].
  - cbn in Hl. injection Hl as -> ->.
    apply (zclose_app_pop [] g x).
  - cbn in Hl. injection Hl as -> ->.
    assert (Hsplit : exists l0 g0, g :: y :: l = l0 ++ [g0]).
    { assert (Hne : g :: y :: l <> []) by done.
      apply last_is_Some in Hne as [g0 Hg0].
      apply last_Some in Hg0 as [l0 ->]. by exists l0, g0. }
    destruct Hsplit as (l0 & g0 & Hl0).
    change (g :: y :: l ++ [x]) with ((g :: y :: l) ++ [x]).
    rewrite Hl0, <- app_assoc. cbn [app].
    rewrite z_pop_snoc. apply zclose_app_pop.
Qed.

Lemma zclose_z_close_tags (turns : nat) (node : CharUnit) :
  forall fs, zclose (z_close_tags turns fs node) = zclose fs.
Proof.
  induction turns as [| turns IH]; intros fs; cbn;
    destruct (z_must_close fs node); try done.
  by rewrite IH, zclose_z_pop.
Qed.

Lemma text_of_wrap (sh : Shape) (inner : list Node) :
  flat_map textContent (wrap sh inner) = flat_map textContent inner.
Proof. destruct sh; [done |]. cbn. by rewrite app_nil_r. Qed.

Lemma text_of_zclose_open (fs : list Frame) (tagInfo : TagInfo) :
  flat_map textContent (zclose (z_open_tag fs tagInfo)) = flat_map textContent (zclose fs).
Proof.
  unfold z_open_tag. induction fs as [| [sh kids] fs IH]; [done |].
  cbn [app]. rewrite !zclose_cons, !text_of_wrap. rewrite !flat_map_app.
  by rewrite IH.
Qed.

Lemma text_of_zclose_add (new : list Node) (fs : list Frame) :
  fs <> [] ->
  flat_map textContent (zclose (on_last (add_kids new) fs))
  = flat_map textContent (zclose fs) ++ flat_map textContent new.
Proof.
  induction fs as [| [sh kids] fs IH]; [done |]. intros _.
  destruct fs as [| f fs].
  - cbn [on_last]. unfold add_kids. cbn [fst snd].
    rewrite !zclose_cons, !text_of_wrap.
    cbn [zclose]. by rewrite !app_nil_r, flat_map_app.
  - rewrite on_last_cons by done.
    rewrite !zclose_cons, !text_of_wrap, !flat_map_app, IH by done.
    by rewrite app_assoc.
Qed.

Lemma text_of_z_render_char (fs : list Frame) (node : CharUnit) :
  fs <> [] ->
  flat_map textContent (zclose (z_render_char fs node))
  = flat_map textContent (zclose fs) ++ [char node].
Proof.
  intros Hne. unfold z_render_char.
  rewrite text_of_zclose_add.
  - f_equal.
    generalize (drop (length (tail (z_close_tags (length (tail fs)) fs node)))
                  (tags node)) as opened.
    intros opened.
    rewrite <- (zclose_z_close_tags (length (tail fs)) node fs).
    generalize (z_close_tags (length (tail fs)) fs node) as fs1.
    induction opened as [| t opened IH]; intros fs1; [done |].
    cbn [foldl]. by rewrite IH, text_of_zclose_open.
  - rewrite foldl_z_open_tag. intros [H _]%app_eq_nil.
    destruct fs as [| root fs']; [done |]. cbn [tail] in H.
    rewrite z_close_tags_shut in H by done.
    apply (f_equal length) in H.
    rewrite length_shut in H by (pose proof (kept_le fs' node); cbn; lia).
    done.
Qed.

Lemma z_render_nonempty (nodes : list CharUnit) :
  forall fs, fs <> [] -> z_render fs nodes <> [].
Proof.
  unfold z_render. induction nodes as [| node nodes IH]; intros fs Hne;
    [done |].
  cbn [foldl]. apply IH. unfold z_render_char.
  apply on_last_nonempty. rewrite foldl_z_open_tag.
  intros [H _]%app_eq_nil.
  destruct fs as [| root fs']; [done |]. cbn [tail] in H.
  rewrite z_close_tags_shut in H by done.
  apply (f_equal length) in H.
  rewrite length_shut in H by (pose proof (kept_le fs' node); cbn; lia).
  done.
Qed.

Lemma text_of_z_render (nodes : list CharUnit) :
  forall fs, fs <> [] ->
    flat_map textContent (zclose (z_render fs nodes))
    = flat_map textContent (zclose fs) ++ map char nodes.
Proof.
  induction nodes as [| node nodes IH]; intros fs Hne.
  - by rewrite app_nil_r.
  - change (z_render fs (node :: nodes))
      with (z_render (z_render_char fs node) nodes).
    rewrite IH.
    + rewrite text_of_z_render_char by done. by rewrite <- app_assoc.
    + apply (z_render_nonempty [node] fs Hne).
Qed.

Lemma text_of_upgraded (node : Node) :
  textContent (upgraded node) = textContent node.
Proof.
  induction node as [text | n a kids IH | data | n a kids IH] using Node_ind;
    try done.
  cbn [upgraded].
  assert (H : flat_map textContent (map upgraded kids)
              = flat_map textContent kids).
  { induction IH as [| k kids Hk _ IHkids]; [done |].
    cbn [map flat_map]. by rewrite Hk, IHkids. }
  by destruct (registered (ascii_lowercase n)); cbn [textContent].
Qed.

Lemma text_of_upgraded_forest (forest : list Node) :
  flat_map textContent (map upgraded forest) = flat_map textContent forest.
Proof.
  induction forest as [| node forest IH]; [done |].
  cbn [map flat_map]. by rewrite text_of_upgraded, IH.
Qed.

(** Whatever the paths of the units, when the host takes the names of
    the first [k] of them as they are, the rendering of these holds
    their [k] characters, each once and in order. *)
Theorem render_keeps_characters (nodes : list CharUnit) (k : nat) :
  (k <= length nodes)%nat ->
  forallb plain (take k nodes) = true ->
  exists forest,
    render nodes (of_nat k) = Some forest /\
    flat_map textContent forest = map char (take k nodes).
Proof.
  intros Hk Hp. eexists. split; [by apply render_frames |].
  rewrite text_of_upgraded_forest.
  fold (z_render z_start (take k nodes)).
  by rewrite text_of_z_render.
Qed.

Lemma render_keeps_characters_witness :
  (2 <= length [unit_x; unit_y; unit_z])%nat /\
  forallb plain (take 2 [unit_x; unit_y; unit_z]) = true /\
  exists forest,
    render [unit_x; unit_y; unit_z] (of_nat 2) = Some forest /\
    flat_map textContent forest = utf16 "xy".
Proof.
  assert (H : (2 <= length [unit_x; unit_y; unit_z])%nat) by (cbn; lia).
  assert (Hp : forallb plain (take 2 [unit_x; unit_y; unit_z]) = true)
    by (by vm_compute).
  split; [exact H |]. split; [exact Hp |].
  exact (render_keeps_characters [unit_x; unit_y; unit_z] 2 H Hp).
Defined.

(** The rendering at a cut depends on the units before the cut only. *)
Theorem render_ignores_rest (nodes : list CharUnit) (k : nat) :
  (k <= length nodes)%nat ->
  render nodes (of_nat k) = render (take k nodes) (of_nat k).
Proof.
  intros Hk. unfold render.
  pose proof (render_loop_cut nodes k 0 render_start Hk) as H.
  rewrite Nat.add_0_l in H. by rewrite H.
Qed.

Lemma render_ignores_rest_witness :
  (1 <= length [unit_x; unit_y])%nat /\
  render [unit_x; unit_y] (of_nat 1) = render (take 1 [unit_x; unit_y]) (of_nat 1).
Proof.
  assert (H : (1 <= length [unit_x; unit_y])%nat) by (cbn; lia).
  split; [exact H | exact (render_ignores_rest [unit_x; unit_y] 1 H)].
Defined.

Lemma js_lt_of_nat_le (a b : nat) (x : number) :
  (a <= b)%nat -> js_lt (of_nat b) x = true -> js_lt (of_nat a) x = true.
Proof.
  intros Hab. destruct x as [| | q |]; try done.
  unfold of_nat, of_Z, js_lt. rewrite !Qlt_bool_iff. intros Hb.
  apply Qle_lt_trans with (2 := Hb). rewrite <- Zle_Qle. lia.
Qed.

Lemma render_loop_past_end (index : number) (rest : list CharUnit) :
  forall i st,
    js_lt (of_nat (i + length rest)) index = true ->
    render_loop rest i index st = None.
Proof.
  induction rest as [| node rest IH]; intros i st; cbn [render_loop length].
  - rewrite Nat.add_0_r. by intros ->.
  - replace (i + S (length rest))%nat with (S i + length rest)%nat by lia.
    intros H. rewrite (js_lt_of_nat_le i (S i + length rest) index) by (done || lia).
    destruct (render_char st node) as [st' |]; [| done]. by apply IH.
Qed.

Lemma render_loop_raises (index : number) (rest : list CharUnit) :
  forallb accepted rest = true ->
  forall i st,
    render_loop rest i index st = None
    <-> js_lt (of_nat (i + length rest)) index = true.
Proof.
  induction rest as [| node rest IH]; intros Ha i st; cbn [render_loop length].
  - rewrite Nat.add_0_r. by destruct (js_lt (of_nat i) index).
  - cbn in Ha. apply andb_true_iff in Ha as [Hn Ha].
    replace (i + S (length rest))%nat with (S i + length rest)%nat by lia.
    destruct (js_lt (of_nat i) index) eqn:Hi.
    + destruct (render_char_accepted st node Hn) as [st' ->]. by apply IH.
    + split; [done |]. intros H.
      apply (js_lt_of_nat_le i) in H; [congruence | lia].
Qed.

Lemma render_past_end (nodes : list CharUnit) (index : number) :
  js_lt (of_nat (length nodes)) index = true -> render nodes index = None.
Proof.
  intros H. unfold render.
  by rewrite (render_loop_past_end index nodes 0 render_start H).
Qed.

(** When the host accepts the names of the units, [_render()] raises
    exactly when the index is greater than the number of units: it then
    reads a unit that is not there.  It raises then whatever the names. *)
Theorem render_raises_iff (nodes : list CharUnit) (index : number) :
  (js_lt (of_nat (length nodes)) index = true -> render nodes index = None) /\
  (forallb accepted nodes = true ->
   (render nodes index = None
    <-> js_lt (of_nat (length nodes)) index = true)).
Proof.
  split; [apply render_past_end |]. intros Ha.
  unfold render.
  rewrite <- (render_loop_raises index nodes Ha 0 render_start).
  by destruct (render_loop nodes 0 index render_start).
Qed.

Lemma render_raises_iff_witness :
  js_lt (of_nat (length [unit_x; unit_y])) (of_Z 3) = true /\
  forallb accepted [unit_x; unit_y] = true /\
  render [unit_x; unit_y] (of_Z 3) = None /\
  (render [unit_x; unit_y] (of_Z 2) = None
   <-> js_lt (of_nat (length [unit_x; unit_y])) (of_Z 2) = true).
Proof.
  assert (H : js_lt (of_nat (length [unit_x; unit_y])) (of_Z 3) = true)
    by reflexivity.
  assert (Ha : forallb accepted [unit_x; unit_y] = true) by (by vm_compute).
  split; [exact H |]. split; [exact Ha |].
  split.
  - exact (proj1 (render_raises_iff [unit_x; unit_y] (of_Z 3)) H).
  - exact (proj2 (render_raises_iff [unit_x; unit_y] (of_Z 2)) Ha).
Defined.

Lemma render_loop_ext (x y : number) (rest : list CharUnit) :
  (forall i, js_lt (of_nat i) x = js_lt (of_nat i) y) ->
  forall i st, render_loop rest i x st = render_loop rest i y st.
Proof.
  intros Hxy. induction rest as [| node rest IH]; intros i st;
    cbn [render_loop]; rewrite Hxy; [done |].
  destruct (js_lt (of_nat i) y); [| done].
  destruct (render_char st node); [apply IH | done].
Qed.

Lemma below_ceiling (i : nat) (q : Q) :
  js_lt (of_nat i) (Num q) = js_lt (of_nat i) (of_Z (Qceiling q)).
Proof.
  unfold of_nat, of_Z, js_lt.
  pose proof (Qle_ceiling q) as Hle. pose proof (Qceiling_lt q) as Hlt.
  destruct (Qlt_bool (inject_Z (Z.of_nat i)) (inject_Z (Qceiling q))) eqn:Hc.
  - apply Qlt_bool_iff. apply Qlt_bool_iff in Hc.
    rewrite <- Zlt_Qlt in Hc.
    apply Qle_lt_trans with (2 := Hlt). rewrite <- Zle_Qle. lia.
  - apply Qlt_bool_false. apply Qlt_bool_false in Hc.
    by apply Qle_trans with (1 := Hle).
Qed.

(** An index that is not whole shows every unit it has begun: the
    rendering is that of the index rounded up. *)
Theorem render_rounds_up (nodes : list CharUnit) (q : Q) :
  render nodes (Num q) = render nodes (of_Z (Qceiling q)).
Proof.
  unfold render. f_equal. apply render_loop_ext. intros i.
  apply below_ceiling.
Qed.

(** An index that is NaN, zero or negative shows nothing, and does not
    raise. *)
Theorem render_nothing_below (nodes : list CharUnit) (index : number) :
  index = NaN \/ js_le index (of_Z 0) = true ->
  render nodes index = Some [].
Proof.
  intros Hidx.
  assert (H0 : js_lt (of_nat 0) index = false).
  { destruct Hidx as [-> | Hle]; [done |].
    destruct (js_lt (of_nat 0) index) eqn:Hlt; [| done].
    exfalso. by apply (js_lt_le_absurd (of_nat 0) index). }
  unfold render. destruct nodes; cbn [render_loop]; by rewrite H0.
Qed.

Lemma render_nothing_below_witness :
  (Num (-3) = NaN \/ js_le (Num (-3)) (of_Z 0) = true) /\
  render [unit_x] (Num (-3)) = Some [].
Proof.
  assert (H : Num (-3) = NaN \/ js_le (Num (-3)) (of_Z 0) = true)
    by (right; reflexivity).
  split; [exact H | exact (render_nothing_below [unit_x] (Num (-3)) H)].
Defined.

(** ** The loops of the renderer on the store *)

Lemma length_removelast {A : Type} (l : list A) :
  length (removelast l) = (length l - 1)%nat.
Proof.
  destruct (decide (l = [])) as [-> | Hne]; [done |].
  apply last_is_Some in Hne as [x Hx]. apply last_Some in Hx as [l' ->].
  rewrite removelast_last, length_app. cbn. lia.
Qed.

(** The [while] that closes tags ends within as many turns as there are
    open elements, its condition being false then. *)
Theorem close_tags_ends (node : CharUnit) (turns : nat) :
  forall st, (length (tagStack st) <= turns)%nat ->
    must_close (close_tags turns st node) node = false.
Proof.
  induction turns as [| turns IH]; intros st Hlen; cbn [close_tags];
    destruct (must_close st node) eqn:Hmc; try done.
  - apply must_close_nonempty in Hmc. destruct (tagStack st); cbn in *; [done | lia].
  - apply IH. cbn [close_tag tagStack]. rewrite length_removelast. lia.
Qed.

Lemma close_tags_ends_witness :
  (length (tagStack (render_char_valid render_start unit_x)) <= 1)%nat /\
  must_close
    (close_tags 1 (render_char_valid render_start unit_x)
       {| char := 99%N; tags := [] |})
    {| char := 99%N; tags := [] |} = false.
Proof.
  assert (H : (length (tagStack (render_char_valid render_start unit_x)) <= 1)%nat)
    by (cbn; lia).
  split; [exact H |].
  exact (close_tags_ends {| char := 99%N; tags := [] |} 1
           (render_char_valid render_start unit_x) H).
Defined.

Lemma open_tag_depth (st st' : RenderState) (tagInfo : TagInfo) :
  open_tag st tagInfo = Some st' ->
  length (tagStack st') = S (length (tagStack st)).
Proof.
  unfold open_tag.
  destruct (createElement (name tagInfo) (document st)) as [[element d1] |];
    [| done].
  cbn [mbind option_bind].
  destruct (map_fold _ _ _) as [d2 |]; [| done].
  cbn. intros [= <-]. cbn. rewrite length_app. cbn. lia.
Qed.

Lemma length_foldl_open (tags : list TagInfo) :
  forall st st',
    foldl (fun st tagInfo => st ≫= fun st => open_tag st tagInfo) (Some st)
      tags = Some st' ->
    length (tagStack st') = (length (tagStack st) + length tags)%nat.
Proof.
  induction tags as [| t tags IH]; intros st st'; cbn [foldl length].
  - intros [= <-]. lia.
  - cbn [mbind option_bind].
    destruct (open_tag st t) as [st1 |] eqn:H1.
    + intros H. rewrite (IH _ _ H), (open_tag_depth _ _ _ H1). lia.
    + intros H. exfalso. clear -H.
      induction tags as [| t' tags IH']; [done | by apply IH'].
Qed.

Lemma close_tags_depth (node : CharUnit) (turns : nat) :
  forall st, (length (tagStack st) <= turns)%nat ->
    (length (tagStack (close_tags turns st node)) <= length (tags node))%nat.
Proof.
  induction turns as [| turns IH]; intros st Hlen; cbn [close_tags];
    destruct (must_close st node) eqn:Hmc.
  - lia.
  - unfold must_close in Hmc. apply orb_false_iff in Hmc as [Hlt _].
    by apply Nat.ltb_ge in Hlt.
  - apply IH. cbn [close_tag tagStack]. rewrite length_removelast. lia.
  - unfold must_close in Hmc. apply orb_false_iff in Hmc as [Hlt _].
    by apply Nat.ltb_ge in Hlt.
Qed.

(** After a unit is rendered, as many elements are open as its path has
    tags; and a unit is rendered when the host accepts its names. *)
Theorem render_char_depth (st : RenderState) (node : CharUnit) :
  (forall st', render_char st node = Some st' ->
     length (tagStack st') = length (tags node)) /\
  (accepted node = true -> exists st', render_char st node = Some st').
Proof.
  split; [| apply render_char_accepted].
  intros st'. unfold render_char, open_tags.
  set (st1 := close_tags (length (tagStack st)) st node).
  assert (Hlt : (length (tagStack st1) <= length (tags node))%nat)
    by (by apply close_tags_depth).
  destruct (foldl _ _ _) as [st2 |] eqn:H2; [| done].
  cbn. intros [= <-]. unfold add_text. cbn [createTextNode tagStack].
  rewrite (length_foldl_open _ _ _ H2), length_drop. lia.
Qed.

Lemma render_char_depth_witness :
  accepted unit_x = true /\
  exists st', render_char render_start unit_x = Some st' /\
    length (tagStack st') = length (tags unit_x).
Proof.
  assert (Ha : accepted unit_x = true) by (by vm_compute).
  split; [exact Ha |].
  destruct (proj2 (render_char_depth render_start unit_x) Ha) as [st' H].
  exists st'. split; [exact H |].
  exact (proj1 (render_char_depth render_start unit_x) st' H).
Defined.

(** A unit that lies deeper than the elements that are open continues
    none of them, whatever their names: the [while] closes them all,
    so that the whole path of the unit is opened anew. *)
Theorem deeper_unit_closes_all (node : CharUnit) (turns : nat) :
  forall st, length (tagStack st) = turns ->
    (turns < length (tags node))%nat ->
    tagStack (close_tags turns st node) = [].
Proof.
  induction turns as [| turns IH]; intros st Hlen Hdeep; cbn [close_tags].
  - destruct (tagStack st) eqn:E; [| done]. by destruct (must_close st node).
  - assert (Hmc : must_close st node = true).
    { unfold must_close, _tagsMatch. rewrite Hlen.
      destruct (Nat.eqb_spec (S turns) (length (tags node))); [lia |].
      cbn. apply orb_true_r. }
    rewrite Hmc. apply IH; [| lia].
    cbn [close_tag tagStack]. rewrite length_removelast. lia.
Qed.

Lemma deeper_unit_closes_all_witness :
  length (tagStack (render_char_valid render_start unit_x)) = 1%nat /\
  (1 < length (tags {| char := 99%N; tags := tags unit_x ++ tags unit_y |}))%nat /\
  tagStack
    (close_tags 1 (render_char_valid render_start unit_x)
       {| char := 99%N; tags := tags unit_x ++ tags unit_y |}) = [].
Proof.
  assert (H1 : length (tagStack (render_char_valid render_start unit_x)) = 1%nat)
    by reflexivity.
  assert (H2 : (1 < length (tags {| char := 99%N;
                                    tags := tags unit_x ++ tags unit_y |}))%nat)
    by (cbn; lia).
  split; [exact H1 |]. split; [exact H2 |].
  exact (deeper_unit_closes_all _ 1 _ H1 H2).
Defined.

(** ** Configuration *)

(** Whatever the attribute and the number read from its value, the
    callback leaves a positive speed and bounds that are not negative;
    it changes nothing when the value is the old one or the attribute is
    not one of the three. *)
Theorem attributeChangedCallback_config (parseFloat : option string -> number)
    (attr : string) (oldValue newValue : option string) (s : State) :
  (config_ok s ->
   config_ok (attributeChangedCallback parseFloat attr oldValue newValue s)) /\
  (oldValue = newValue ->
   attributeChangedCallback parseFloat attr oldValue newValue s = s) /\
  (attr <> "speed" -> attr <> "min-duration" -> attr <> "max-duration" ->
   attributeChangedCallback parseFloat attr oldValue newValue s = s).
Proof.
  unfold attributeChangedCallback. split; [| split].
  - intros (Hs & Hmin & Hmax). destruct (decide _); [done |].
    destruct (String.eqb attr "speed").
    { split; [| done]. cbn [_speed set_speed]. unfold js_gt.
      by destruct (js_lt (of_Z 0) (parseFloat newValue)) eqn:E. }
    destruct (String.eqb attr "min-duration").
    { split; [done |]. split; [| done]. cbn [_minDuration set_minDuration].
      unfold js_ge.
      by destruct (js_le (of_Z 0) (parseFloat newValue)) eqn:E. }
    destruct (String.eqb attr "max-duration"); [| done].
    split; [done |]. split; [done |]. cbn [_maxDuration set_maxDuration].
    unfold js_ge. by destruct (js_le (of_Z 0) (parseFloat newValue)) eqn:E.
  - intros ->. by destruct (decide _).
  - intros H1 H2 H3. destruct (decide _); [done |].
    apply String.eqb_neq in H1, H2, H3. by rewrite H1, H2, H3.
Qed.

Lemma attributeChangedCallback_config_witness :
  config_ok constructed /\
  config_ok
    (attributeChangedCallback (fun _ => Num (-2)) "speed" None (Some "-2")
       constructed).
Proof.
  assert (H : config_ok constructed) by (repeat split).
  split; [exact H |].
  exact (proj1 (attributeChangedCallback_config (fun _ => Num (-2)) "speed"
                  None (Some "-2") constructed) H).
Defined.

(** ** Frame requests *)

Lemma pending_held (s : State) : pending_ok s -> held_only s.
Proof. intros [H | (_ & h & H)]; [by left | right; by exists h]. Qed.

Lemma cancel_clears (s : State) :
  held_only s -> frameRequests (_cancelAnimation s) = [].
Proof.
  cancelled s. rewrite H11. unfold not_cancelled.
  intros [Hq | (h & Hq & Hh)]; rewrite Hq.
  - by destruct (_animationFrame s) as [[| ?] |].
  - rewrite Hh. cbn. by rewrite decide_False by (intros ?; done).
Qed.

Lemma scheduled_ok (s : State) :
  frameRequests s = [] -> _isPlaying s = true -> _isPaused s = false ->
  pending_ok (schedule_animate s).
Proof.
  intros Hq Hp Hpa. right. unfold isPlaying. fields.
  rewrite Hq, Hp, Hpa. split; [done |]. by exists (frameId s).
Qed.

Lemma animate_pending (timestamp : number) (s : State) :
  frameRequests s = [] -> pending_ok (state_of (_animate timestamp s)).
Proof.
  intros Hq. unfold _animate.
  destruct (_isPlaying s) eqn:Hp, (_isPaused s) eqn:Hpa; cbn [negb orb];
    try (by left).
  fold (anchored timestamp s).
  pose proof (anchored_fields timestamp s) as Ha. cbv zeta in Ha.
  destruct Ha as (Hn & Hi & Hpl & Hpau & Hco & Hdi & Hfr & Hfi).
  rewrite Hp in Hpl. rewrite Hpa in Hpau. rewrite Hq in Hfr.
  generalize dependent (anchored timestamp s). intros a Hn Hi Hpl Hpau Hco Hdi Hfr Hfi.
  destruct (js_ge _ _); [| by apply scheduled_ok].
  destruct (js_lt _ _).
  - unfold _render.
    cbn [_parsedNodes _currentIndex set_currentIndex set_lastTimestamp].
    destruct (render _ _) as [tree |]; cbn [and_then state_of]; [| by left].
    destruct (js_ge _ _); cbn [state_of]; [by left |].
    by apply scheduled_ok.
  - cbn [and_then]. destruct (js_ge _ _); cbn [state_of]; [by left |].
    by apply scheduled_ok.
Qed.

(** At most one frame is requested, and only while the element plays:
    every public operation, every frame the host runs, the attribute
    and connection callbacks keep it so, and a disconnected element
    waits for no frame. *)
Theorem one_pending_frame (s : State) :
  pending_ok s ->
  (forall op, pending_ok (state_of (run_op op s))) /\
  (forall timestamp, pending_ok (run_frame timestamp s)) /\
  (forall parseFloat attr oldValue newValue,
     pending_ok
       (attributeChangedCallback parseFloat attr oldValue newValue s)) /\
  (forall innerHTML respect reduced,
     pending_ok
       (state_of (connectedCallback innerHTML respect reduced s))) /\
  frameRequests (disconnectedCallback s) = [].
Proof.
  intros Hs. pose proof (pending_held s Hs) as Hh.
  pose proof (cancel_clears s Hh) as Hclear. cancelled s.
  assert (Hstart : forall s0, pending_ok s0 -> pending_ok (state_of (start s0))).
  { intros s0 Hs0. destruct (_isPlaying s0) eqn:Hp.
    - unfold start. by rewrite Hp.
    - rewrite start_when_stopped by done. cbn [state_of].
      apply scheduled_ok; fields; try done.
      by apply cancel_clears, pending_held. }
  assert (Hcomplete : forall s0, pending_ok s0 ->
    pending_ok (state_of (complete s0))).
  { intros s0 Hs0. left. unfold complete, _render. fields.
    destruct (render _ _); fields; by apply cancel_clears, pending_held. }
  split; [| split; [| split; [| split]]].
  - intros [| | | | | position | newContent]; cbn [run_op].
    + by apply Hstart.
    + unfold pause.
      destruct (negb (_isPlaying s) || _isPaused s); [done |].
      left. fields. apply cancel_clears.
      destruct Hh as [Hq | (h & Hq & Hhh)]; [by left | right; by exists h].
    + unfold resume.
      destruct (_isPlaying s) eqn:Hp, (_isPaused s) eqn:Hpa;
        cbn [negb orb]; try done.
      cbn [state_of]. apply scheduled_ok; fields; try done.
      destruct Hs as [Hq | (Hpl & _)]; [done |].
      unfold isPlaying in Hpl. by rewrite Hp, Hpa in Hpl.
    + by apply Hcomplete.
    + left. unfold reset, _render. fields.
      destruct (render _ _); fields; done.
    + rewrite seek_unfold. cbv zeta.
      destruct (render _ _) as [tree |]; [| left; fields; done].
      unfold isPlaying.
      destruct (_isPlaying s) eqn:Hp, (_isPaused s) eqn:Hpa;
        cbn [negb andb state_of]; try (left; fields; done).
      apply scheduled_ok; fields; congruence.
    + left. unfold setText, _render. fields.
      destruct (render _ _); fields; done.
  - intros timestamp. unfold run_frame.
    destruct Hh as [Hq | (h & Hq & Hhh)]; rewrite Hq; cbn [foldl].
    + destruct Hs as [Hq' | (Hpl & h & Hq' & Hh')]; [by left | congruence].
    + by apply animate_pending.
  - intros parseFloat attr oldValue newValue. unfold attributeChangedCallback.
    destruct (decide _); [done |].
    destruct (String.eqb attr "speed"); [done |].
    destruct (String.eqb attr "min-duration"); [done |].
    by destruct (String.eqb attr "max-duration").
  - intros innerHTML respect reduced. unfold connectedCallback.
    set (s0 := match html (_originalContent s) with [] => _ | _ :: _ => s end).
    assert (Hs0 : pending_ok s0).
    { unfold s0. by destruct (html (_originalContent s)). }
    destruct (respect && reduced); [by apply Hcomplete |].
    destruct (negb (_isPlaying s0) && negb (_isPaused s0));
      [by apply Hstart | done].
  - done.
Qed.

Lemma one_pending_frame_witness :
  pending_ok playing /\
  pending_ok (run_frame (of_Z 1000) playing) /\
  frameRequests (disconnectedCallback playing) = [].
Proof.
  assert (H : pending_ok playing).
  { right. split; [reflexivity |]. by exists 0%nat. }
  split; [exact H |].
  destruct (one_pending_frame playing H) as (_ & Hf & _ & _ & Hd).
  split; [apply Hf | exact Hd].
Defined.

(** ** How the operations compose *)

(** Rewrites with what [cancelled] has put in the context *)
Ltac uncancel :=
  repeat match goal with
  | H : ?f (_cancelAnimation ?x) = _ |- context [?f (_cancelAnimation ?x)] =>
      rewrite H
  end.

(** [start()], [pause()] and [resume()] done twice are done once. *)
Theorem start_pause_resume_idempotent (s : State) :
  and_then (start s) start = start s /\
  and_then (pause s) pause = pause s /\
  and_then (resume s) resume = resume s.
Proof.
  assert (Hagain : forall (f : State -> Outcome) s', f s = Returned s' ->
    f s' = Returned s' -> and_then (f s) f = f s).
  { intros f s' H1 H2. rewrite H1. cbn [and_then]. exact H2. }
  split; [| split].
  - destruct (_isPlaying s) eqn:Hp.
    + apply (Hagain start s); unfold start; by rewrite Hp.
    + eapply Hagain; [by apply start_when_stopped |].
      unfold start. by fields.
  - destruct (negb (_isPlaying s) || _isPaused s) eqn:Hg.
    + apply (Hagain pause s); unfold pause; by rewrite Hg.
    + eapply Hagain; [unfold pause; by rewrite Hg |].
      cancelled (set_isPaused true s). unfold pause. fields.
      uncancel. by rewrite orb_true_r.
  - destruct (negb (_isPlaying s) || negb (_isPaused s)) eqn:Hg.
    + apply (Hagain resume s); unfold resume; by rewrite Hg.
    + eapply Hagain; [unfold resume; by rewrite Hg |].
      unfold resume. fields. by rewrite orb_true_r.
Qed.

(** Pausing a playing element and resuming it leaves the sequence, the
    index and the content as they were; the element plays again, with
    one frame requested, the time anchor cleared, and [pause] and
    [resume] dispatched in this order. *)
Theorem pause_then_resume (s : State) :
  isPlaying s = true -> pending_ok s ->
  exists s', and_then (pause s) resume = Returned s' /\
    _parsedNodes s' = _parsedNodes s /\
    _currentIndex s' = _currentIndex s /\
    content s' = content s /\
    isPlaying s' = true /\
    _lastTimestamp s' = of_Z 0 /\
    dispatched s' = dispatched s ++ [NewEvent "pause"; NewEvent "resume"] /\
    frameRequests s' = [S (frameId s)].
Proof.
  unfold isPlaying. intros [Hp Hpa%negb_true_iff]%andb_true_iff Hs.
  unfold pause. rewrite Hp, Hpa. cbn [negb orb and_then].
  assert (Hq : frameRequests (_cancelAnimation (set_isPaused true s)) = []).
  { apply cancel_clears.
    destruct (pending_held s Hs) as [Hq | (h & Hq & Hh)];
      [by left | right; by exists h]. }
  cancelled (set_isPaused true s). fields.
  unfold resume. fields. rewrite ?Hq. uncancel. rewrite Hp. cbn [negb orb].
  eexists. split; [reflexivity |]. fields. rewrite ?Hq. uncancel. fields.
  rewrite Hp, <- app_assoc. done.
Qed.

Lemma pause_then_resume_witness :
  isPlaying playing = true /\ pending_ok playing /\
  exists s', and_then (pause playing) resume = Returned s' /\
    _currentIndex s' = _currentIndex playing.
Proof.
  assert (H1 : isPlaying playing = true) by reflexivity.
  assert (H2 : pending_ok playing).
  { right. split; [reflexivity |]. by exists 0%nat. }
  split; [exact H1 |]. split; [exact H2 |].
  destruct (pause_then_resume playing H1 H2) as (s' & Hs' & _ & Hi & _).
  by exists s'.
Defined.

(** A tick that comes after [pause()], [complete()], [reset()] or
    [setText()] changes nothing: a callback that was not cancelled in
    time is harmless. *)
Theorem stale_tick_is_harmless (op : Op) (timestamp : number) (s : State) :
  op <> OpStart -> op <> OpResume -> (forall p, op <> OpSeek p) ->
  let s' := state_of (run_op op s) in
  _animate timestamp s' = Returned s'.
Proof.
  intros H1 H2 H3. cbv zeta.
  assert (Hstop : forall s0, negb (_isPlaying s0) || _isPaused s0 = true ->
    _animate timestamp s0 = Returned s0).
  { intros s0 H. unfold _animate. by rewrite H. }
  apply Hstop.
  destruct op as [| | | | | p | c]; try done; cbn [run_op].
  - unfold pause.
    destruct (negb (_isPlaying s) || _isPaused s) eqn:E; [done |].
    cancelled (set_isPaused true s). fields. uncancel. apply orb_true_r.
  - unfold complete, _render. fields. by destruct (render _ _).
  - unfold reset, _render. fields. by destruct (render _ _).
  - by specialize (H3 p).
  - unfold setText, _render. fields. by destruct (render _ _).
Qed.

Lemma stale_tick_is_harmless_witness :
  OpPause <> OpStart /\
  _animate (of_Z 1000) (state_of (run_op OpPause playing))
  = Returned (state_of (run_op OpPause playing)).
Proof.
  split; [discriminate |].
  apply (stale_tick_is_harmless OpPause (of_Z 1000) playing);
    discriminate.
Defined.

(** [setText()] always returns: the new markup is parsed, the index is
    0, nothing is shown, the element neither plays nor is paused, the
    frame it held is cancelled, and no event is dispatched. *)
Theorem setText_replaces (newContent : Markup) (s : State) :
  exists s', setText newContent s = Returned s' /\
    _parsedNodes s' = _parseContent (parsed newContent) /\
    _originalContent s' = newContent /\
    _currentIndex s' = of_Z 0 /\ content s' = [] /\
    _isPlaying s' = false /\ _isPaused s' = false /\
    dispatched s' = dispatched s /\
    frameRequests s' = not_cancelled s /\
    (pending_ok s -> frameRequests s' = []).
Proof.
  unfold setText, _render. fields. rewrite render_nothing.
  eexists. split; [reflexivity |]. cancelled s. fields.
  repeat split; try done.
  intros Hs. by apply cancel_clears, pending_held.
Qed.

Lemma setText_replaces_witness :
  pending_ok playing /\
  exists s', setText (markup "<b>Hi</b>" bold_hi) playing = Returned s' /\
    frameRequests s' = [].
Proof.
  assert (H : pending_ok playing).
  { right. split; [reflexivity |]. by exists 0%nat. }
  split; [exact H |].
  destruct (setText_replaces (markup "<b>Hi</b>" bold_hi) playing)
    as (s' & Hs' & _ & _ & _ & _ & _ & _ & _ & _ & Hq).
  exists s'. split; [exact Hs' | exact (Hq H)].
Defined.

(** [seek(NaN)] returns with NaN as the index: nothing is shown, and
    the event carries NaN as position and as progress. *)
Theorem seek_NaN (s : State) :
  exists s', seek NaN s = Returned s' /\
    _currentIndex s' = NaN /\ content s' = [] /\
    dispatched s' = dispatched s ++
      [NewCustomEvent "seek" [("position", NaN); ("progress", NaN)]].
Proof.
  rewrite seek_unfold. cbv zeta.
  change (sought NaN (total s)) with NaN in *.
  assert (HN : render (_parsedNodes s) NaN = Some [])
    by (unfold render; by destruct (_parsedNodes s)).
  rewrite HN. cancelled s.
  destruct (isPlaying s); eexists; (split; [reflexivity |]);
    unfold seek_detail; fields; by uncancel.
Qed.

(** ** Ticks *)

Lemma animate_index (timestamp : number) (s : State) (k : nat) :
  _currentIndex s = of_nat k -> (k <= total s)%nat ->
  is_array_length (total s) -> forallb accepted (_parsedNodes s) = true ->
  exists s' k', _animate timestamp s = Returned s' /\
    _parsedNodes s' = _parsedNodes s /\
    _currentIndex s' = of_nat k' /\
    (k <= k' <= S k)%nat /\ (k' <= total s)%nat.
Proof.
  intros Hk Hle Harr Hacc. unfold is_array_length in Harr. unfold _animate.
  destruct (negb (_isPlaying s) || _isPaused s);
    [exists s, k; repeat split; (done || lia) |].
  fold (anchored timestamp s).
  pose proof (anchored_fields timestamp s) as Ha. cbv zeta in Ha.
  destruct Ha as (Hn & Hi & _). rewrite Hk in Hi.
  unfold total in *. rewrite <- Hn in Hle, Harr, Hacc.
  remember (anchored timestamp s) as a eqn:Ea. clear Ea.
  destruct (js_ge _ _).
  2:{ exists (schedule_animate a), k. fields. rewrite <- Hn.
      repeat split; (done || lia). }
  cbn [_currentIndex _parsedNodes set_lastTimestamp].
  rewrite Hi, js_lt_of_nat.
  destruct (Nat.ltb_spec k (length (_parsedNodes a))) as [Hlt | Hge].
  - change (of_Z 1) with (of_nat 1). rewrite js_add_of_nat by lia.
    replace (k + 1)%nat with (S k) by lia.
    unfold _render. fields.
    destruct (render_returns (_parsedNodes a) (of_nat (S k)) Hacc)
      as [tree Htree].
    { right. rewrite js_le_of_nat. apply Nat.leb_le. lia. }
    rewrite Htree.
    fields. destruct (js_ge _ _); eexists _, (S k);
      (split; [reflexivity |]); fields; rewrite <- Hn;
      repeat split; (done || lia).
  - fields. rewrite Hi. destruct (js_ge _ _); eexists _, k;
      (split; [reflexivity |]); fields; rewrite <- Hn;
      repeat split; (done || lia).
Qed.

Lemma ticks_cons (timestamp : number) (timestamps : list number) (s s' : State) :
  _animate timestamp s = Returned s' ->
  ticks (timestamp :: timestamps) s = ticks timestamps s'.
Proof. unfold ticks. cbn [foldl and_then]. by intros ->. Qed.

(** Over any ticks, however spaced, on units whose names the host
    accepts, an index that counts units never goes back, goes forward by
    at most one unit per tick and never passes the end; no tick raises.
    The progress of such a run thus never decreases. *)
Theorem ticks_advance (timestamps : list number) :
  forall (s : State) (k : nat),
    _currentIndex s = of_nat k -> (k <= total s)%nat ->
    is_array_length (total s) -> forallb accepted (_parsedNodes s) = true ->
    exists s' k', ticks timestamps s = Returned s' /\
      _parsedNodes s' = _parsedNodes s /\
      _currentIndex s' = of_nat k' /\
      (k <= k' <= k + length timestamps)%nat /\ (k' <= total s)%nat.
Proof.
  induction timestamps as [| timestamp timestamps IH];
    intros s k Hk Hle Harr Hacc.
  - exists s, k. cbn. repeat split; (done || lia).
  - destruct (animate_index timestamp s k Hk Hle Harr Hacc)
      as (s1 & k1 & Hs1 & Hn1 & Hk1 & Hb1 & Hle1).
    rewrite (ticks_cons _ _ _ _ Hs1).
    unfold total in *. rewrite <- Hn1 in Hle1, Harr, Hacc.
    destruct (IH s1 k1 Hk1 Hle1 Harr Hacc)
      as (s' & k' & Hs' & Hn' & Hk' & Hb' & Hle').
    exists s', k'. cbn [length]. rewrite Hn', Hn1 in *.
    repeat split; (done || lia).
Qed.

Lemma ticks_advance_witness :
  _currentIndex playing = of_nat 0 /\ (0 <= total playing)%nat /\
  is_array_length (total playing) /\
  forallb accepted (_parsedNodes playing) = true /\
  exists s' k', ticks [of_Z 1000; of_Z 1100; of_Z 1200] playing = Returned s' /\
    _currentIndex s' = of_nat k' /\ (k' <= 0 + 3)%nat.
Proof.
  assert (H1 : _currentIndex playing = of_nat 0) by reflexivity.
  assert (H2 : (0 <= total playing)%nat) by apply Nat.le_0_l.
  assert (H3 : is_array_length (total playing)) by (by vm_compute).
  assert (H4 : forallb accepted (_parsedNodes playing) = true)
    by (by vm_compute).
  split; [exact H1 |]. split; [exact H2 |].
  split; [exact H3 |]. split; [exact H4 |].
  destruct (ticks_advance [of_Z 1000; of_Z 1100; of_Z 1200] playing 0
              H1 H2 H3 H4)
    as (s' & k' & Hs' & _ & Hk' & [_ Hb] & _).
  exists s', k'. split; [exact Hs' |]. split; [exact Hk' | exact Hb].
Defined.

(** A due tick on a playing element whose index lies before the end and
    whose index plus one, as the machine adds, lies past it (as after
    [seek()] to a position between the last unit and the end) raises:
    [_render()] reads a unit that is not there, no event is dispatched,
    no frame is requested, and the element stays in the playing phase. *)
Theorem tick_past_end_raises (timestamp : number) (s : State) (q : Q) :
  isPlaying s = true -> _currentIndex s = Num q ->
  js_lt (Num q) (of_nat (total s)) = true ->
  js_lt (of_nat (total s)) (js_add (Num q) (of_Z 1)) = true ->
  due timestamp s = true ->
  exists s', _animate timestamp s = Threw s' /\
    _currentIndex s' = js_add (Num q) (of_Z 1) /\
    isPlaying s' = true /\ content s' = content s /\
    dispatched s' = dispatched s /\ frameRequests s' = frameRequests s.
Proof.
  unfold isPlaying.
  intros [Hp Hpa%negb_true_iff]%andb_true_iff Hq Hlo Hhi Hdue.
  unfold _animate. rewrite Hp, Hpa. cbn [negb orb].
  fold (anchored timestamp s).
  rewrite calculateCharDelay_anchored. fold (due timestamp s). rewrite Hdue.
  pose proof (anchored_fields timestamp s) as Ha. cbv zeta in Ha.
  destruct Ha as (Hn & Hi & Hpl & Hpau & Hco & Hdi & Hfr & Hfi).
  unfold total in *.
  remember (anchored timestamp s) as a eqn:Ea. clear Ea.
  cbn [_currentIndex _parsedNodes set_lastTimestamp].
  rewrite Hi, Hq, Hn, Hlo.
  unfold _render. fields. rewrite Hn.
  rewrite (render_past_end _ _ Hhi).
  fields. eexists. split; [reflexivity |]. fields.
  rewrite Hpl, Hpau, Hp, Hpa. done.
Qed.

Lemma tick_past_end_raises_witness :
  isPlaying sought_between = true /\
  _currentIndex sought_between = Num (19 # 2) /\
  js_lt (Num (19 # 2)) (of_nat (total sought_between)) = true /\
  js_lt (of_nat (total sought_between)) (js_add (Num (19 # 2)) (of_Z 1))
  = true /\
  due (of_Z 2000) sought_between = true /\
  exists s', _animate (of_Z 2000) sought_between = Threw s' /\
    _currentIndex s' = Num (21 # 2).
Proof.
  assert (H1 : isPlaying sought_between = true) by (by vm_compute).
  assert (H2 : _currentIndex sought_between = Num (19 # 2)) by (by vm_compute).
  assert (H3 : js_lt (Num (19 # 2)) (of_nat (total sought_between)) = true)
    by (by vm_compute).
  assert (H4 : js_lt (of_nat (total sought_between))
                 (js_add (Num (19 # 2)) (of_Z 1)) = true)
    by (by vm_compute).
  assert (H5 : due (of_Z 2000) sought_between = true) by (by vm_compute).
  do 5 (split; [assumption |]).
  destruct (tick_past_end_raises (of_Z 2000) sought_between (19 # 2)
              H1 H2 H3 H4 H5) as (s' & Hs' & Hi & _).
  exists s'. split; [exact Hs' |]. rewrite Hi. by vm_compute.
Defined.

(** ** Connection *)



(** ** The parser, in general *)

(** [_traverseNodes] leaves the units already parsed as they are and
    appends, in document order (depth first, pre-order), one unit per
    code unit of each text node, under the path of the elements around
    it (names in lower case, attributes copied but for one named
    [__proto__]); other nodes add nothing, no markup gives no unit, and
    [<b>Hi</b>] gives two units under the path [b]. *)
Theorem traverseNodes_document_order :
  (forall nodes openTags parsed,
     _traverseNodes nodes openTags parsed
     = parsed ++ document_order nodes openTags) /\
  (forall text openTags parsed,
     _traverseNodes [TextNode text] openTags parsed
     = parsed ++ map (unit_at openTags) text) /\
  (forall n a kids openTags parsed,
     _traverseNodes [ElementNode n a kids] openTags parsed
     = _traverseNodes kids
         (openTags ++ [{| name := toLowerCase n;
                          attributes := delete "__proto__" a |}]) parsed) /\
  (forall data openTags parsed,
     _traverseNodes [CommentNode data] openTags parsed = parsed) /\
  _parseContent [] = [] /\
  _parseContent bold_hi
  = [{| char := 72%N; tags := [{| name := "b"; attributes := ∅ |}] |};
     {| char := 105%N; tags := [{| name := "b"; attributes := ∅ |}] |}].
Proof.
  split; [apply traverseNodes_appends |].
  split; [| split; [| split; [| split]]].
  - intros text openTags parsed. rewrite traverseNodes_appends.
    unfold document_order. cbn. by rewrite app_nil_r.
  - intros n a kids openTags parsed. rewrite !traverseNodes_appends.
    unfold document_order. cbn. by rewrite app_nil_r.
  - intros data openTags parsed. rewrite traverseNodes_appends.
    unfold document_order. cbn. by rewrite app_nil_r.
  - reflexivity.
  - by vm_compute.
Qed.

(** ** The index over a run *)

(** From a state whose index lies in [0, len], every public operation
    leaves the index in [0, len] (a [seek] for any position that is
    not NaN), whether it returns or raises, so that [progress] then
    lies in [0, 1]; and it returns when the host accepts the names of
    the units it is left with. *)
Theorem ops_keep_index_in_range (op : Op) (s : State) :
  index_in_range s -> is_array_length (total s) ->
  (forall position, op = OpSeek position -> position <> NaN) ->
  let s' := state_of (run_op op s) in
  index_in_range s' /\ within (of_Z 0) (of_Z 1) (progress s') /\
  (forallb accepted (_parsedNodes s') = true ->
   run_op op s = Returned s').
Proof.
  intros Hs Harr Hop. cbv zeta.
  assert (Hok : forall o, index_in_range (state_of o) ->
    (forallb accepted (_parsedNodes (state_of o)) = true ->
     o = Returned (state_of o)) ->
    index_in_range (state_of o) /\
    within (of_Z 0) (of_Z 1) (progress (state_of o)) /\
    (forallb accepted (_parsedNodes (state_of o)) = true ->
     o = Returned (state_of o))).
  { intros o Ho Hr. split; [done |]. split; [by apply progress_within | done]. }
  cancelled s.
  destruct op as [| | | | | position | newContent]; cbn [run_op]; apply Hok.
  - destruct (_isPlaying s) eqn:Hp.
    + unfold start. by rewrite Hp.
    + rewrite start_when_stopped by done.
      unfold index_in_range, total. fields. rewrite H0. apply zero_in_range.
  - destruct (_isPlaying s) eqn:Hp.
    + unfold start. by rewrite Hp.
    + by rewrite start_when_stopped by done.
  - unfold pause.
    destruct (negb (_isPlaying s) || _isPaused s); [done |].
    pose proof (cancelled_fields (set_isPaused true s)) as Hc'.
    cbv zeta in Hc'. destruct Hc' as (_ & Hn & Hi & _).
    unfold index_in_range, total in *. fields. by rewrite Hn, Hi.
  - unfold pause. by destruct (negb (_isPlaying s) || _isPaused s).
  - unfold resume.
    by destruct (negb (_isPlaying s) || negb (_isPaused s)).
  - unfold resume.
    by destruct (negb (_isPlaying s) || negb (_isPaused s)).
  - unfold complete, _render. fields. unfold total. rewrite H0.
    assert (Hin : within (of_Z 0) (of_nat (length (_parsedNodes s)))
                    (of_nat (length (_parsedNodes s))))
      by apply total_in_range.
    destruct (render _ _); fields; unfold index_in_range, total; fields;
      by rewrite H0.
  - unfold complete, _render. fields. unfold total. rewrite H0.
    destruct (render (_parsedNodes s) (of_nat (length (_parsedNodes s))))
      as [tree |] eqn:Hr; fields; [done |].
    rewrite H0. intros Hacc.
    destruct (render_returns (_parsedNodes s)
                (of_nat (length (_parsedNodes s))) Hacc) as [tree Htree];
      [| congruence].
    right. rewrite js_le_of_nat. by apply Nat.leb_le.
  - unfold reset, _render. fields. rewrite render_nothing. fields.
    unfold index_in_range, total. fields. rewrite H0. apply zero_in_range.
  - unfold reset, _render. fields. by rewrite render_nothing.
  - rewrite seek_unfold. cbv zeta.
    assert (Hin : within (of_Z 0) (of_nat (total s))
                    (sought position (total s)))
      by (apply sought_within; [done | by apply Hop]).
    unfold total in *.
    destruct (render _ _); [destruct (isPlaying s) |]; fields;
      unfold index_in_range, total; fields; by rewrite H0.
  - rewrite seek_unfold. cbv zeta.
    destruct (render (_parsedNodes s) (sought position (total s)))
      as [tree |] eqn:Hr; [done |].
    fields. rewrite H0. intros Hacc.
    destruct (sought_renders position (_parsedNodes s) Harr Hacc)
      as [tree Htree].
    unfold total in Hr. congruence.
  - unfold setText, _render. fields. rewrite render_nothing. fields.
    unfold index_in_range, total. fields. apply zero_in_range.
  - unfold setText, _render. fields. by rewrite render_nothing.
Qed.

Lemma ops_keep_index_in_range_witness :
  index_in_range loaded /\ is_array_length (total loaded) /\
  index_in_range (state_of (run_op (OpSeek (of_Z 25)) loaded)) /\
  within (of_Z 0) (of_Z 1)
    (progress (state_of (run_op (OpSeek (of_Z 25)) loaded))).
Proof.
  assert (H : index_in_range loaded) by (split; reflexivity).
  assert (Ha : is_array_length (total loaded)) by (by vm_compute).
  assert (Hp : forall position,
                 OpSeek (of_Z 25) = OpSeek position -> position <> NaN)
    by (intros position [= <-]; discriminate).
  split; [exact H |]. split; [exact Ha |].
  destruct (ops_keep_index_in_range (OpSeek (of_Z 25)) loaded H Ha Hp)
    as (H1 & H2 & _).
  split; [exact H1 | exact H2].
Defined.

Lemma whole_in_range (s : State) : whole_index s -> index_in_range s.
Proof. intros (k & Hk & Hle). unfold index_in_range. rewrite Hk. by apply count_in_range. Qed.

Lemma js_lt_of_Z (a b : Z) : js_lt (of_Z a) (of_Z b) = (a <? b).
Proof.
  unfold of_Z, js_lt, Qlt_bool, Qle_bool, inject_Z. cbn.
  rewrite !Z.mul_1_r, Z.ltb_antisym. done.
Qed.

Lemma Math_min_of_Z (a b : Z) : Math_min (of_Z a) (of_Z b) = of_Z (Z.min a b).
Proof.
  unfold Math_min. change (of_Z a) with (Num (inject_Z a)) at 1.
  change (of_Z b) with (Num (inject_Z b)) at 1.
  cbv iota beta. change (Num (inject_Z a)) with (of_Z a).
  change (Num (inject_Z b)) with (of_Z b). rewrite js_lt_of_Z.
  destruct (Z.ltb_spec b a); f_equal; lia.
Qed.

Lemma Math_max_of_Z (a b : Z) : Math_max (of_Z a) (of_Z b) = of_Z (Z.max a b).
Proof.
  unfold Math_max. change (of_Z a) with (Num (inject_Z a)) at 1.
  change (of_Z b) with (Num (inject_Z b)) at 1.
  cbv iota beta. change (Num (inject_Z a)) with (of_Z a).
  change (Num (inject_Z b)) with (of_Z b). rewrite js_lt_of_Z.
  destruct (Z.ltb_spec a b); f_equal; lia.
Qed.

Lemma sought_whole (position : number) (n : nat) :
  is_array_length n -> whole_position position ->
  exists k, sought position n = of_nat k /\ (k <= n)%nat.
Proof.
  intros Hn Hp. unfold sought.
  destruct (js_ge position (of_Z 0) && js_le position (of_Z 1)) eqn:Hin.
  - apply andb_true_iff in Hin as [H0 H1].
    destruct position as [| | q |]; try done.
    unfold js_ge, js_le, of_Z in H0, H1.
    apply Qle_bool_iff in H0, H1. change (inject_Z 0) with 0%Q in H0.
    change (inject_Z 1) with 1%Q in H1.
    destruct (floor_count q n) as (k & Hk & ->); try done.
    + unfold is_array_length in Hn. lia.
    + by exists k.
  - destruct Hp as [Hp | [[z ->] | [-> | ->]]]; [congruence | | |].
    + exists (Z.to_nat (Z.max 0 (Z.min z (Z.of_nat n)))). split; [| lia].
      unfold of_nat. rewrite Math_min_of_Z, Math_max_of_Z. f_equal. lia.
    + exists n. split; [| lia].
      change (Math_min Infinity (of_nat n)) with (of_nat n).
      unfold of_nat. rewrite Math_max_of_Z. f_equal. lia.
    + exists 0%nat. split; [reflexivity | lia].
Qed.

Lemma animate_whole (timestamp : number) (s : State) :
  whole_index s -> is_array_length (total s) ->
  whole_index (state_of (_animate timestamp s)) /\
  _parsedNodes (state_of (_animate timestamp s)) = _parsedNodes s.
Proof.
  intros (k & Hk & Hle) Harr. unfold is_array_length in Harr.
  unfold whole_index, _animate.
  destruct (negb (_isPlaying s) || _isPaused s);
    [split; [by exists k | done] |].
  fold (anchored timestamp s).
  pose proof (anchored_fields timestamp s) as Ha. cbv zeta in Ha.
  destruct Ha as (Hn & Hi & _). rewrite Hk in Hi.
  unfold total in *. rewrite <- Hn in Hle, Harr.
  rewrite <- Hn. clear Hn.
  remember (anchored timestamp s) as a eqn:Ea. clear Ea.
  destruct (js_ge _ _); [| fields; split; [by exists k | done]].
  cbn [_currentIndex _parsedNodes set_lastTimestamp].
  rewrite Hi, js_lt_of_nat.
  destruct (Nat.ltb_spec k (length (_parsedNodes a))) as [Hlt | Hge].
  - change (of_Z 1) with (of_nat 1). rewrite js_add_of_nat by lia.
    replace (k + 1)%nat with (S k) by lia.
    unfold _render. fields.
    destruct (render _ _); fields;
      [destruct (js_ge _ _) |]; fields; (split; [| done]);
      exists (S k); split; (done || lia).
  - fields. rewrite Hi. destruct (js_ge _ _); fields; (split; [| done]);
      exists k; split; (done || lia).
Qed.

Lemma run_frame_whole (timestamp : number) (s : State) :
  whole_index s -> is_array_length (total s) ->
  whole_index (run_frame timestamp s) /\
  _parsedNodes (run_frame timestamp s) = _parsedNodes s.
Proof.
  intros Hw Harr. unfold run_frame.
  assert (H0 : whole_index (set_frameRequests [] s) /\
               _parsedNodes (set_frameRequests [] s) = _parsedNodes s)
    by (split; [exact Hw | done]).
  revert H0. generalize (set_frameRequests [] s) as s0.
  induction (frameRequests s) as [| h hs IH]; intros s0 [Hw0 Hn0]; [done |].
  cbn [foldl]. apply IH.
  destruct (animate_whole timestamp s0 Hw0) as [Hw1 Hn1].
  { unfold total in *. by rewrite Hn0. }
  split; [exact Hw1 | by rewrite Hn1].
Qed.

Lemma op_whole (op : Op) (s : State) :
  whole_index s -> is_array_length (total s) ->
  whole_action (Invoke op) ->
  whole_index (state_of (run_op op s)) /\
  is_array_length (total (state_of (run_op op s))).
Proof.
  intros Hw Harr Hop. cancelled s.
  assert (Hzero : forall n, exists k, of_Z 0 = of_nat k /\ (k <= n)%nat)
    by (intros n; exists 0%nat; split; [done | lia]).
  destruct op as [| | | | | position | newContent]; cbn [run_op].
  - destruct (_isPlaying s) eqn:Hp.
    + unfold start. by rewrite Hp.
    + rewrite start_when_stopped by done.
      unfold whole_index, total in *. fields. rewrite H0. by split.
  - unfold pause.
    destruct (negb (_isPlaying s) || _isPaused s); [done |].
    pose proof (cancelled_fields (set_isPaused true s)) as Hc'.
    cbv zeta in Hc'. destruct Hc' as (_ & Hn & Hi & _).
    unfold whole_index, total in *. fields. by rewrite Hn, Hi.
  - unfold resume.
    by destruct (negb (_isPlaying s) || negb (_isPaused s)).
  - unfold complete, _render. fields. unfold total in *. rewrite H0.
    destruct (render _ _); fields; unfold whole_index, total; fields;
      rewrite H0; (split; [| done]); by eexists.
  - unfold reset, _render. fields. rewrite render_nothing. fields.
    unfold whole_index, total in *. fields. rewrite H0. by split.
  - rewrite seek_unfold. cbv zeta.
    destruct (sought_whole position (total s) Harr Hop) as (k & Hk & Hle).
    unfold total in *.
    destruct (render _ _); [destruct (isPlaying s) |]; fields;
      unfold whole_index, total; fields; rewrite H0;
      (split; [| done]); by exists k.
  - unfold setText, _render. fields. rewrite render_nothing. fields.
    unfold whole_index, total. fields. by split.
Qed.

(** Over a whole run of public operations and frames, in any order,
    whether they return or raise, an index that counts units keeps
    counting them: as long as every [seek] is to a fraction of the text,
    a whole number or an infinity, the index stays a whole number from 0
    to [len], and [progress] stays in [0, 1]. *)
Theorem run_keeps_index_whole (actions : list Action) :
  forall s : State,
    whole_index s -> is_array_length (total s) ->
    Forall whole_action actions ->
    let s' := run actions s in
    whole_index s' /\ is_array_length (total s') /\
    index_in_range s' /\ within (of_Z 0) (of_Z 1) (progress s').
Proof.
  induction actions as [| action actions IH]; intros s Hw Harr Hall;
    cbv zeta.
  - pose proof (whole_in_range s Hw) as Hin.
    split; [done |]. split; [done |]. split; [done |].
    by apply progress_within.
  - apply Forall_cons in Hall as [Ha Hall].
    change (run (action :: actions) s) with (run actions (perform s action)).
    destruct action as [op | timestamp]; cbn [perform].
    + destruct (op_whole op s Hw Harr Ha) as [Hw' Harr'].
      by apply IH.
    + destruct (run_frame_whole timestamp s Hw Harr) as [Hw' Hn'].
      apply IH; [done | | done]. unfold total in *. by rewrite Hn'.
Qed.

Lemma run_keeps_index_whole_witness :
  whole_index playing /\ is_array_length (total playing) /\
  Forall whole_action
    [Tick (of_Z 1000); Invoke (OpSeek (Num (1 # 2))); Tick (of_Z 2000);
     Invoke (OpSeek (of_Z 25)); Tick (of_Z 3000)] /\
  within (of_Z 0) (of_Z 1)
    (progress
       (run [Tick (of_Z 1000); Invoke (OpSeek (Num (1 # 2))); Tick (of_Z 2000);
             Invoke (OpSeek (of_Z 25)); Tick (of_Z 3000)] playing)).
Proof.
  assert (H1 : whole_index playing)
    by (exists 0%nat; split; [reflexivity | apply Nat.le_0_l]).
  assert (H2 : is_array_length (total playing)) by (by vm_compute).
  assert (H3 : Forall whole_action
    [Tick (of_Z 1000); Invoke (OpSeek (Num (1 # 2))); Tick (of_Z 2000);
     Invoke (OpSeek (of_Z 25)); Tick (of_Z 3000)]).
  { apply Forall_cons. split; [exact I |].
    apply Forall_cons. split; [by left |].
    apply Forall_cons. split; [exact I |].
    apply Forall_cons. split; [right; left; by exists 25 |].
    apply Forall_cons. split; [exact I | constructor]. }
  split; [exact H1 |]. split; [exact H2 |]. split; [exact H3 |].
  exact (proj2 (proj2 (proj2 (run_keeps_index_whole _ playing H1 H2 H3)))).
Defined.

(** Where the sum of the index and 1 rounds to [len], a tick on an index
    between the last unit and the end does not raise: two characters
    sought to the number next above 1 are completed by the tick that is
    due. *)
Theorem tick_rounds_to_end :
  let s := run_frame (of_Z 1000) sought_above_one in
  total s = 2%nat /\ isPlaying s = true /\
  _currentIndex s = Num (4503599627370497 # 4503599627370496) /\
  js_lt (of_Z 1) (_currentIndex s) = true /\
  js_lt (_currentIndex s) (of_nat (total s)) = true /\
  js_add (_currentIndex s) (of_Z 1) = of_Z 2 /\
  exists s', _animate (of_Z 2000) s = Returned s' /\
    _currentIndex s' = of_Z 2 /\ isPlaying s' = false /\
    dispatched s' = dispatched s ++
      [NewCustomEvent "progress"
         [("current", of_Z 2); ("total", of_Z 2); ("progress", of_Z 1)];
       NewEvent "complete"].
Proof.
  cbv zeta. do 6 (split; [by vm_compute |]).
  eexists. split; [by vm_compute |]. by vm_compute.
Qed.

